(** * SuWidgets: the multi-resolution waterfall line of GLWaterfall.h

    A shallow embedding of [GLLine] (the mip-pyramid row of the OpenGL
    waterfall) and of the part of [GLWaterfallOpenGLContext] that the
    widget mutates, followed by the properties of the pyramid.

    Conventions.
    - C++ [int] is a 32-bit two's complement integer, held in [Z] with the
      wrap-around written out ([Int.wrap]); [size_t] is 64 bits (LP64).
    - C++ [float] is IEEE 754 binary32, held as [spec_float] with the
      operations of [SpecFloat] at precision 24 and exponent bound 128.
    - [std::vector<float>] is a [list float]; an access outside the vector
      is undefined behaviour and is reported as the fault [Undefined]. *)

From Stdlib Require Import ZArith QArith Lia Ascii String.
From Stdlib.Floats Require Import SpecFloat.
From stdpp Require Import base numbers list.

Local Open Scope Z_scope.

(** ** Outcomes of fallible operations *)

Variant outcome (A : Type) : Type :=
  | Done (a : A)     (* the call returns normally *)
  | Undefined        (* undefined behaviour: bad conversion, access outside the buffer *)
  | LengthError.     (* std::length_error thrown by std::vector::resize *)

Arguments Done {A} a.
Arguments Undefined {A}.
Arguments LengthError {A}.

Definition obind {A B : Type} (m : outcome A) (k : A -> outcome B) : outcome B :=
  match m with
  | Done a => k a
  | Undefined => Undefined
  | LengthError => LengthError
  end.

Notation "'do' x <- m ; k" := (obind m (fun x => k))
  (at level 10, x name, m at level 100, k at level 200).

(** ** 32-bit [int] and 64-bit [size_t] *)

Module Int.

Definition min_int : Z := - 2 ^ 31.
Definition max_int : Z := 2 ^ 31 - 1.

(** Reduction of a mathematical integer into the range of [int]. *)
Definition wrap (z : Z) : Z := (z + 2 ^ 31) mod 2 ^ 32 - 2 ^ 31.

Definition add (a b : Z) : Z := wrap (a + b).

(** [a << n]: the product is reduced into the range of [int] (what
    C++20 defines, and what compilers did before it). *)
Definition shl (a n : Z) : Z := wrap (Z.shiftl a n).

(** [a >> n], an arithmetic shift. *)
Definition shr (a n : Z) : Z := Z.shiftr a n.

(** [static_cast<size_t>(a)] *)
Definition to_size_t (a : Z) : Z := a mod 2 ^ 64.

(** [static_cast<int>(n)] for a [size_t] n *)
Definition of_size_t (n : Z) : Z := wrap n.

Definition in_range (z : Z) : Prop := min_int <= z <= max_int.

End Int.

(** ** binary32 [float] *)

Module F32.

Definition float : Type := spec_float.

Definition prec : Z := 24.
Definition emax : Z := 128.

Definition add : float -> float -> float := SFadd prec emax.
Definition mul : float -> float -> float := SFmul prec emax.
Definition div : float -> float -> float := SFdiv prec emax.

(** The literals [0], [1.] and [.5f]. *)
Definition zero : float := S754_zero false.
Definition one : float := S754_finite false 8388608 (-23).
Definition half : float := S754_finite false 8388608 (-24).

(** The float [2^-k] (mantissa [2^23], exponent [-23 - k]). *)
Definition pow2_neg (k : nat) : float :=
  S754_finite false 8388608 (-23 - Z.of_nat k).

(** Conversion of an [int] to [float], rounding to nearest even. *)
Definition of_int (z : Z) : float := binary_normalize prec emax z 0 false.

Definition is_nan (x : float) : bool :=
  match x with S754_nan => true | _ => false end.

(** The comparisons [==], [<] and [<=] of C. *)
Definition eqb : float -> float -> bool := SFeqb.
Definition ltb : float -> float -> bool := SFltb.
Definition leb : float -> float -> bool := SFleb.

(** [fmaxf] of the C library (ISO C 7.12.12.2 and F.10.9.2): a NaN
    argument is treated as missing data, otherwise the larger argument
    is returned; when the two compare equal (which includes zeros of
    unlike sign) the second argument is returned, as glibc does on
    x86-64. *)
Definition fmaxf (x y : float) : float :=
  match x, y with
  | S754_nan, _ => y
  | _, S754_nan => x
  | _, _ => if ltb y x then x else y
  end.

End F32.

Definition float : Type := F32.float.

(** [x == y] on floats as a proposition. *)
Definition feq (x y : float) : Prop := F32.eqb x y = true.

(** [x <= y] on floats as a proposition, and "is a number". *)
Definition fle (x y : float) : Prop := F32.leb x y = true.

Definition not_nan (x : float) : Prop := F32.is_nan x = false.

(** ** GLLine *)

(** [class GLLine : public std::vector<float>] with its private field
    [levels]. *)
Record GLLine : Type := mkGLLine {
  levels : Z;
  data : list float
}.

(** A default-constructed line: [levels = 0] and an empty vector. *)
Definition emptyLine : GLLine := mkGLLine 0 [].

(** [std::vector::max_size()] for [float] elements on LP64. *)
Definition max_size : Z := 2 ^ 61 - 1.

(** [size()] *)
Definition size (l : GLLine) : Z := Z.of_nat (length (data l)).

(** [resize(n)]: keeps the first [n] elements and pads with zeros. *)
Definition resize (n : Z) (l : GLLine) : outcome GLLine :=
  if max_size <? n then LengthError
  else
    Done (mkGLLine (levels l)
            (take (Z.to_nat n) (data l)
               ++ replicate (Z.to_nat n - length (data l)) F32.zero)).

(** [initialize()]: [assign(size(), 0)]. *)
Definition initialize (l : GLLine) : GLLine :=
  mkGLLine (levels l) (replicate (length (data l)) F32.zero).

Definition allocationFor (res : Z) : Z := Int.shl res 1.

Definition resolutionFor (alloc : Z) : Z := Int.shr alloc 1.

(** [static_cast<int>(ceil(log2(res)))]. For [res >= 1] the logarithm is
    finite and its ceiling is [Z.log2_up res]; for [res <= 0] it is an
    infinity or a NaN, whose conversion to [int] is undefined. *)
Definition ceil_log2 (res : Z) : outcome Z :=
  if 0 <? res then Done (Z.log2_up res) else Undefined.

Definition setResolution (res : Z) (l : GLLine) : outcome GLLine :=
  do c <- ceil_log2 res;
  let l1 := mkGLLine (Int.add c 1) (data l) in
  do l2 <- resize (Int.to_size_t (allocationFor res)) l1;
  Done (initialize l2).

Definition allocation (l : GLLine) : Z := Int.of_size_t (size l).

Definition resolution (l : GLLine) : Z := resolutionFor (allocation l).

(** The loop of [setValueMax]: [l] iterations are left, [p] is the offset
    of the current level, [index] the bin in it and [res] its width. *)
Fixpoint setValueMax_loop (l : nat) (p index res : Z) (val : float)
    (d : list float) : outcome (list float) :=
  match l with
  | O => Done d
  | S l' =>
      let i := Z.to_nat (Int.to_size_t (Int.add p index)) in
      match d !! i with
      | None => Undefined
      | Some x =>
          setValueMax_loop l' (Int.add p res) (Int.shr index 1)
            (Int.shr res 1) val (<[i := F32.fmaxf val x]> d)
      end
  end.

Definition setValueMax (index : Z) (val : float) (l : GLLine)
    : outcome GLLine :=
  do d <- setValueMax_loop (Z.to_nat (levels l)) 0 index (resolution l) val
          (data l);
  Done (mkGLLine (levels l) d).

(** The loop of [setValueMean]; [k] is the running weight. *)
Fixpoint setValueMean_loop (l : nat) (p index res : Z) (k val : float)
    (d : list float) : outcome (list float) :=
  match l with
  | O => Done d
  | S l' =>
      let i := Z.to_nat (Int.to_size_t (Int.add p index)) in
      match d !! i with
      | None => Undefined
      | Some x =>
          setValueMean_loop l' (Int.add p res) (Int.shr index 1)
            (Int.shr res 1) (F32.mul k F32.half) val
            (<[i := F32.add x (F32.mul k val)]> d)
      end
  end.

Definition setValueMean (index : Z) (val : float) (l : GLLine)
    : outcome GLLine :=
  do d <- setValueMean_loop (Z.to_nat (levels l)) 0 index (resolution l)
          F32.one val (data l);
  Done (mkGLLine (levels l) d).

(** ** Layout of the pyramid

    The buffer holds the levels one after the other, finest first:
    [AAAABBCX] for 4 bins. *)

(** Offset of level [k] in a line whose finest level has [r] bins: what
    [p] has accumulated after [k] rounds of [p += res; res >>= 1]. *)
Fixpoint level_base (r : Z) (k : nat) : Z :=
  match k with
  | O => 0
  | S k' => r + level_base (Z.shiftr r 1) k'
  end.

(** Number of bins of level [k]. *)
Definition level_width (r : Z) (k : nat) : Z := Z.shiftr r (Z.of_nat k).

(** The level-[k] ancestor of finest bin [index]. *)
Definition ancestor (index : Z) (k : nat) : Z := Z.shiftr index (Z.of_nat k).

(** Buffer offset of bin [i] of level [k]. *)
Definition cell (l : GLLine) (k : nat) (i : Z) : nat :=
  Z.to_nat (level_base (resolution l) k + i).

(** Bin [i] of level [k]. *)
Definition bin (l : GLLine) (k : nat) (i : Z) : option float :=
  data l !! cell l k i.

(** A line of resolution [2^n] as [setResolution] leaves it: [n + 1]
    levels in a buffer of [2 * 2^n] floats. *)
Record wf_line (n : nat) (l : GLLine) : Prop := mk_wf_line {
  wf_levels : levels l = Z.of_nat n + 1;
  wf_size : size l = 2 * 2 ^ Z.of_nat n;
  wf_resolution : resolution l = 2 ^ Z.of_nat n
}.

(** The max-pyramid invariant: every bin of a coarser level compares
    equal ([==]) to the [fmaxf] of its two children. *)
Definition max_node (l : GLLine) (k : nat) (i : Z) : Prop :=
  exists x a b,
    bin l (S k) i = Some x /\
    bin l k (2 * i) = Some a /\
    bin l k (2 * i + 1) = Some b /\
    feq x (F32.fmaxf a b).

Definition max_pyramid (l : GLLine) : Prop :=
  forall (k : nat) (i : Z),
    Z.of_nat (S k) < levels l ->
    0 <= i < level_width (resolution l) (S k) ->
    max_node l k i.

(** The same invariant as a check that computes. *)
Definition max_nodeb (l : GLLine) (k : nat) (i : Z) : bool :=
  match bin l (S k) i, bin l k (2 * i), bin l k (2 * i + 1) with
  | Some x, Some a, Some b => F32.eqb x (F32.fmaxf a b)
  | _, _, _ => false
  end.

Definition max_pyramidb (l : GLLine) : bool :=
  forallb
    (fun k =>
       forallb (max_nodeb l k)
         (seqZ 0 (level_width (resolution l) (S k))))
    (seq 0 (Z.to_nat (levels l) - 1)).

(** The weight of [setValueMean] after [k] rounds of [k *= .5f]. *)
Definition weight (k : nat) : float :=
  Nat.iter k (fun w => F32.mul w F32.half) F32.one.

(** The client loop of the bin-by-bin property:
    [for (i = first; ...; ++i) line.setValueMax(i, values[i - first])]. *)
Fixpoint setValueMax_each (first : Z) (values : list float) (l : GLLine)
    : outcome GLLine :=
  match values with
  | [] => Done l
  | v :: vs =>
      do l' <- setValueMax first v l;
      setValueMax_each (first + 1) vs l'
  end.

(** ** Bulk ingestion (GLWaterfall.cpp) *)

(** Modelled from the spec: one step of the rebuild, "level k bin i
    equals the max (or mean) of level k-1 bins 2i and 2i+1". Combines the
    bins of a level two by two. *)
Fixpoint pairwise (f : float -> float -> float) (xs : list float)
    : list float :=
  match xs with
  | a :: b :: rest => f a b :: pairwise f rest
  | _ => []
  end.

(** Modelled from the spec: the [n] levels above [level], "each coarser
    level half the length of the previous", concatenated. *)
Fixpoint coarser (f : float -> float -> float) (n : nat)
    (level : list float) : list float :=
  match n with
  | O => []
  | S n' => let up := pairwise f level in up ++ coarser f n' up
  end.

(** Modelled from the spec: the pyramid rebuild ([rescaleMax] and
    [rescaleMean] are only declared in GLWaterfall.h). "Rebuild all
    coarser levels bottom-up from scratch": the finest level is kept,
    every coarser bin is recomputed from its two children, the padding
    cell that follows the last level is left as it is. *)
Definition rescale (f : float -> float -> float) (l : GLLine) : GLLine :=
  let level0 := take (Z.to_nat (resolution l)) (data l) in
  let pyramid := level0 ++ coarser f (Z.to_nat (levels l) - 1) level0 in
  mkGLLine (levels l)
    (take (length (data l)) pyramid ++ drop (length pyramid) (data l)).

(** Modelled from the spec: [assignMax] is only declared in
    GLWaterfall.h. "Bulk-overwrite the finest level from an external
    array of exactly [resolution] samples, then rebuild all coarser
    levels bottom-up from scratch". Reading past the end of [values] is
    undefined. *)
Definition assignMax (values : list float) (l : GLLine) : outcome GLLine :=
  let r := Z.to_nat (resolution l) in
  if (length values <? r)%nat then Undefined
  else
    Done (rescale F32.fmaxf
            (mkGLLine (levels l) (take r values ++ drop r (data l)))).

(** Modelled from the spec: the "arithmetic mean" of a run of samples,
    in float arithmetic: the samples are added from left to right and the
    sum is divided by their count. *)
Definition mean (xs : list float) : float :=
  F32.div (foldl F32.add F32.zero xs) (F32.of_int (Z.of_nat (length xs))).

(** Modelled from the spec: the mean of two sibling bins. *)
Definition mean2 (a b : float) : float := F32.mul F32.half (F32.add a b).

(** Modelled from the spec: the input samples
    [values[i*ratio .. i*ratio + ratio - 1]] that bin [i] aggregates. *)
Definition chunk (values : list float) (ratio i : nat) : list float :=
  take ratio (drop (i * ratio) values).

(** Modelled from the spec: [reduceMean] is only declared in
    GLWaterfall.h. "Ingest an external array whose length may exceed
    [resolution]; each output bin aggregates [length/resolution]
    contiguous input samples via mean, then rebuilds the pyramid".
    [length] samples must be readable from [values], and the division
    [length / resolution] needs a resolution other than zero. *)
Definition reduceMean (values : list float) (len : Z) (l : GLLine)
    : outcome GLLine :=
  let r := resolution l in
  if (Z.of_nat (length values) <? len) || (r =? 0) then Undefined
  else
    let ratio := Z.to_nat (Z.quot len r) in
    let level0 :=
      (fun i => mean (chunk values ratio i)) <$> seq 0 (Z.to_nat r) in
    Done (rescale mean2
            (mkGLLine (levels l) (level0 ++ drop (Z.to_nat r) (data l)))).

(** ** The OpenGL context of the waterfall *)

(** Image content of a [QOpenGLTexture]: rows of texels. *)
Definition texture : Type := list (list float).

(** Name of an object owned by the GPU (buffer, shader, program). *)
Definition gl_object : Type := N.

Definition GLLineHistory : Type := list GLLine.

Record GLWaterfallOpenGLContext : Type := mkContext {
  m_vao : gl_object;
  m_vbo : gl_object;
  m_ibo : gl_object;
  m_program : gl_object;
  m_waterfall : option texture;
  m_palette : option texture;
  m_vertexShader : option gl_object;
  m_fragmentShader : option gl_object;
  m_history : GLLineHistory;
  m_pool : GLLineHistory;
  m_paletBuf : list N;
  m_firstAccum : bool;
  (* Texture geometry *)
  m_row : Z;
  m_rowSize : Z;
  m_rowCount : Z;
  m_maxRowSize : Z;
  m_useMaxBlending : bool;
  (* Level adjustment *)
  m : float;
  x0 : float;
  m_updatePalette : bool;
  (* Geometric parameters *)
  c_x0 : float;
  c_x1 : float;
  m_zoom : float;
  m_width : Z;
  m_height : Z
}.

(** The widget: the state inherited from [AbstractWaterfall] (of type
    [Base], not described in GLWaterfall.h) and the context [glCtx]. *)
Record GLWaterfall (Base : Type) : Type := mkGLWaterfall {
  base : Base;
  glCtx : GLWaterfallOpenGLContext
}.

Arguments mkGLWaterfall {Base} base glCtx.
Arguments base {Base} _.
Arguments glCtx {Base} _.

Definition set_useMaxBlending (val : bool) (c : GLWaterfallOpenGLContext)
    : GLWaterfallOpenGLContext :=
  mkContext (m_vao c) (m_vbo c) (m_ibo c) (m_program c) (m_waterfall c)
    (m_palette c) (m_vertexShader c) (m_fragmentShader c) (m_history c)
    (m_pool c) (m_paletBuf c) (m_firstAccum c) (m_row c) (m_rowSize c)
    (m_rowCount c) (m_maxRowSize c) val (m c) (x0 c) (m_updatePalette c)
    (c_x0 c) (c_x1 c) (m_zoom c) (m_width c) (m_height c).

(** [this->glCtx.m_useMaxBlending = val;] *)
Definition setMaxBlending {Base : Type} (val : bool) (w : GLWaterfall Base)
    : GLWaterfall Base :=
  mkGLWaterfall (base w) (set_useMaxBlending val (glCtx w)).

(** *** The texture ring *)

(** Modelled from the spec: the texture ring of section 4.3, which the
    code keeps in [m_waterfall], [m_row] and [m_rowCount]: the rows of the
    image, the write cursor [row] and the capacity [rowCount]. *)
Record TextureRing : Type := mkRing {
  rows : list (list float);
  row : Z;
  rowCount : Z
}.

(** Modelled from the spec: [flushOneLine] is only declared in
    GLWaterfall.h. "Each commit writes one row at cursor [row], then
    [row = (row + 1) mod rowCount]; wrapping does not erase old rows".
    The remainder is C++'s [%], undefined for a zero divisor. *)
Definition flushOneLine (line : list float) (t : TextureRing)
    : outcome TextureRing :=
  if rowCount t =? 0 then Undefined
  else
    Done (mkRing (<[Z.to_nat (row t) := line]> (rows t))
            (Z.rem (row t + 1) (rowCount t))
            (rowCount t)).

(** Commits the rows of [lines] one after the other. *)
Fixpoint flushEach (lines : list (list float)) (t : TextureRing)
    : outcome TextureRing :=
  match lines with
  | [] => Done t
  | line :: rest => do t' <- flushOneLine line t; flushEach rest t'
  end.

(** A ring of [rowCount] blank rows with the cursor at 0. *)
Definition emptyRing (rowCount : nat) : TextureRing :=
  mkRing (replicate rowCount []) 0 (Z.of_nat rowCount).

(** ** The walk from a bin to the root

    [setValueMax] and [setValueMean] run the same loop and differ in the
    value they store. [climb] is that loop with the stored value left
    open: [f k x] is what replaces [x] at level [k]. *)
Fixpoint climb (f : nat -> float -> float) (k l : nat) (p index res : Z)
    (d : list float) : outcome (list float) :=
  match l with
  | O => Done d
  | S l' =>
      let i := Z.to_nat (Int.to_size_t (Int.add p index)) in
      match d !! i with
      | None => Undefined
      | Some x =>
          climb f (S k) l' (Int.add p res) (Int.shr index 1)
            (Int.shr res 1) (<[i := f k x]> d)
      end
  end.

(** Offset of the level-[j] ancestor when the walk starts at offset [p]
    in a level of width [r]. *)
Definition path_cell (p r index : Z) (j : nat) : nat :=
  Z.to_nat (p + level_base r j + ancestor index j).

(** The offsets [i] that the loop reads and writes, in order. *)
Fixpoint accessed (l : nat) (p index res : Z) : list Z :=
  match l with
  | O => []
  | S l' =>
      Int.to_size_t (Int.add p index)
        :: accessed l' (Int.add p res) (Int.shr index 1) (Int.shr res 1)
  end.

(** The offsets accessed by [setValueMax(index, _)] and by
    [setValueMean(index, _)] on the line [l]. *)
Definition accesses (index : Z) (l : GLLine) : list Z :=
  accessed (Z.to_nat (levels l)) 0 index (resolution l).

(** A single-bin update, and a run of such updates. *)
Variant update : Type :=
  | UpdMax (index : Z) (val : float)
  | UpdMean (index : Z) (val : float).

Definition update_index (u : update) : Z :=
  match u with UpdMax i _ | UpdMean i _ => i end.

Definition apply_update (u : update) (l : GLLine) : outcome GLLine :=
  match u with
  | UpdMax i v => setValueMax i v l
  | UpdMean i v => setValueMean i v l
  end.

Fixpoint apply_updates (us : list update) (l : GLLine) : outcome GLLine :=
  match us with
  | [] => Done l
  | u :: rest => do l' <- apply_update u l; apply_updates rest l'
  end.

(** The cells of the ancestors of finest bin [index], one per level. *)
Definition ancestor_cells (l : GLLine) (index : Z) : list nat :=
  (fun k => cell l k (ancestor index k)) <$> seq 0 (Z.to_nat (levels l)).

(** The last cell of the buffer, the [X] of the layout. *)
Definition pad_cell (l : GLLine) : nat := Z.to_nat (size l - 1).

(** An update whose index is a bin of the finest level. *)
Definition in_line (l : GLLine) (u : update) : Prop :=
  0 <= update_index u < resolution l.

(** ** Runs of max-hold updates *)

(** [line.setValueMax(index, val)] for every pair of [us], in order. *)
Fixpoint setValueMax_all (us : list (Z * float)) (l : GLLine)
    : outcome GLLine :=
  match us with
  | [] => Done l
  | (index, val) :: rest =>
      do l' <- setValueMax index val l;
      setValueMax_all rest l'
  end.

(** What bin [i] of level [k] holds after the updates [us] when it held
    [x] before: the running [fmaxf] with the samples whose finest bin lies
    under it. *)
Definition held (k : nat) (i : Z) (us : list (Z * float)) (x : float)
    : float :=
  foldl
    (fun acc u => if decide (ancestor (fst u) k = i) then F32.fmaxf (snd u) acc
                  else acc)
    x us.

(** ** ContextAwareSpinBox (ContextAwareSpinBox.cpp)

    The spin box chooses its step from the place of the text cursor in
    the number it shows. What it reads from Qt is kept in a record: the
    prefix and the suffix of [QDoubleSpinBox], the text and the cursor of
    its [QLineEdit], and its own fields. *)

Module SpinBox.

(** A [QChar] and a [QString]. *)
Definition QChar : Type := ascii.

Definition QString : Type := list ascii.

(** [a - b] on [int]. *)
Definition int_sub (a b : Z) : Z := Int.wrap (a - b).

(** [static_cast<int>(s.size())], [s.length()] *)
Definition qsize (s : QString) : Z := Int.of_size_t (Z.of_nat (length s)).

(** [QString::mid(position, n)] of Qt: nothing when [position] is past
    the end; everything from [position] when [n] is negative or more than
    what is left; a negative [position] shortens [n]. *)
Definition mid (position n : Z) (s : QString) : QString :=
  let len := Z.of_nat (length s) in
  if len <? position then []
  else if position <? 0 then
    if (n <? 0) || (len <=? n + position) then s
    else if n + position <=? 0 then []
    else take (Z.to_nat (n + position)) s
  else if (n <? 0) || (len - position <? n) then drop (Z.to_nat position) s
  else take (Z.to_nat n) (drop (Z.to_nat position) s).

(** [QString::indexOf(ch)] of Qt: the index of the first [ch], or -1. *)
Fixpoint indexOf_from (ch : QChar) (s : QString) (i : Z) : Z :=
  match s with
  | [] => -1
  | c :: rest => if Ascii.eqb c ch then i else indexOf_from ch rest (i + 1)
  end.

Definition indexOf (ch : QChar) (s : QString) : Z := indexOf_from ch s 0.

(** [qBound(min, val, max)] of Qt: [qMax(min, qMin(max, val))]. *)
Definition qBound (lo v hi : Z) : Z := Z.max lo (Z.min hi v).

Record ContextAwareSpinBox : Type := mkSpinBox {
  prefix : QString;            (* prefix() *)
  suffix : QString;            (* suffix() *)
  text : QString;              (* lineEdit()->text() *)
  cursorPosition : Z;          (* lineEdit()->cursorPosition() *)
  m_decimSep : QChar;
  m_blockEnabled : bool;
  repaints : nat               (* calls of update() so far *)
}.

(** [QLineEdit::setCursorPosition(pos)] of Qt: a position past the end
    of the text is ignored, a negative one is taken as 0. *)
Definition setCursorPosition (pos : Z) (sb : ContextAwareSpinBox)
    : ContextAwareSpinBox :=
  if pos <=? Z.of_nat (length (text sb)) then
    mkSpinBox (prefix sb) (suffix sb) (text sb) (Z.max 0 pos)
      (m_decimSep sb) (m_blockEnabled sb) (repaints sb)
  else sb.

Definition decimalLength (sb : ContextAwareSpinBox) : Z :=
  let prefixLen := qsize (prefix sb) in
  let suffixLen := qsize (suffix sb) in
  let textLen := qsize (text sb) in
  let numberText :=
    mid prefixLen (int_sub (int_sub textLen prefixLen) suffixLen) (text sb) in
  let decPos := indexOf (m_decimSep sb) numberText in
  if 0 <=? decPos then int_sub (qsize numberText) decPos else 0.

(** [intLen], the local that [focusInEvent], [currentStep] and
    [stepToCursor] all compute:
    [textLen - decSize - (prefixLen + suffixLen)]. *)
Definition intLen (sb : ContextAwareSpinBox) : Z :=
  let prefixLen := qsize (prefix sb) in
  let suffixLen := qsize (suffix sb) in
  let textLen := qsize (text sb) in
  let decSize := decimalLength sb in
  int_sub (int_sub textLen decSize) (Int.add prefixLen suffixLen).

(** The exponent [intLen - pos] that [currentStep] hands to [pow]. *)
Definition stepExponent (sb : ContextAwareSpinBox) : Z :=
  let prefixLen := qsize (prefix sb) in
  let decSize := decimalLength sb in
  let intLen := intLen sb in
  let pos := int_sub (cursorPosition sb) prefixLen in
  let pos :=
    if pos <? 0 then intLen
    else if Int.add intLen decSize <? pos then Int.add intLen decSize
    else pos in
  let pos := if intLen <? pos then int_sub pos 1 else pos in
  int_sub intLen pos.

Definition setMinimumStep (sb : ContextAwareSpinBox) : ContextAwareSpinBox :=
  let textLen := qsize (text sb) in
  setCursorPosition textLen sb.

(** [update()] of [QWidget]: one more repaint is asked for. *)
Definition update (sb : ContextAwareSpinBox) : ContextAwareSpinBox :=
  mkSpinBox (prefix sb) (suffix sb) (text sb) (cursorPosition sb)
    (m_decimSep sb) (m_blockEnabled sb) (S (repaints sb)).

Definition setBlockEnabled (en : bool) (sb : ContextAwareSpinBox)
    : ContextAwareSpinBox :=
  if negb (Bool.eqb en (m_blockEnabled sb)) then
    update
      (mkSpinBox (prefix sb) (suffix sb) (text sb) (cursorPosition sb)
         (m_decimSep sb) en (repaints sb))
  else sb.

Definition blockEnabled (sb : ContextAwareSpinBox) : bool := m_blockEnabled sb.

(** The metrics of [QStyle::PixelMetric] that the proxy style tells
    apart. *)
Variant PixelMetric : Type :=
  | PM_TextCursorWidth
  | PM_Other (code : N).

(** [BlockCursorStyle::pixelMetric]; [base] is
    [QProxyStyle::pixelMetric] of the style it wraps. *)
Definition pixelMetric (base : PixelMetric -> Z) (m_spinBox : ContextAwareSpinBox)
    (metric : PixelMetric) : Z :=
  match metric with
  | PM_TextCursorWidth =>
      if blockEnabled m_spinBox then -9 else base metric
  | _ => base metric
  end.

Section Steps.

(** A [qreal], and the two calls of the C library that turn an exponent
    into a step and back: [pow(10., k)] for an [int k], and
    [static_cast<int>(floor(log10(step)))]. *)
Variable qreal : Type.
Variable pow10 : Z -> qreal.
Variable floor_log10 : qreal -> Z.

(** The methods of the Qt base classes that the spin box calls:
    [QDoubleSpinBox::setSingleStep], [QAbstractSpinBox::stepBy] and
    [QDoubleSpinBox::focusInEvent]. *)
Variable base_setSingleStep : qreal -> ContextAwareSpinBox -> ContextAwareSpinBox.
Variable base_stepBy : Z -> ContextAwareSpinBox -> ContextAwareSpinBox.
Variable base_focusInEvent : ContextAwareSpinBox -> ContextAwareSpinBox.

Definition currentStep (sb : ContextAwareSpinBox) : qreal :=
  pow10 (stepExponent sb).

Definition stepToCursor (step : qreal) (sb : ContextAwareSpinBox) : Z :=
  let decimPos := floor_log10 step in
  let prefixLen := qsize (prefix sb) in
  let textLen := qsize (text sb) in
  let intLen := intLen sb in
  let pos := int_sub intLen decimPos in
  let pos := if decimPos <? 0 then Int.add pos 1 else pos in
  Int.add (qBound 0 pos textLen) prefixLen.

Definition stepBy (steps : Z) (sb : ContextAwareSpinBox)
    : ContextAwareSpinBox :=
  let step := currentStep sb in
  let sb1 := base_setSingleStep step sb in
  let sb2 := base_stepBy steps sb1 in
  setCursorPosition (stepToCursor step sb2) sb2.

Definition setSingleStep (step : qreal) (sb : ContextAwareSpinBox)
    : ContextAwareSpinBox :=
  let sb1 := base_setSingleStep step sb in
  setCursorPosition (stepToCursor step sb1) sb1.

Definition focusInEvent (sb : ContextAwareSpinBox) : ContextAwareSpinBox :=
  let prefixLen := qsize (prefix sb) in
  let intLen := intLen sb in
  base_focusInEvent (setCursorPosition (Int.add prefixLen intLen) sb).

End Steps.

(** The text of the box is its prefix, the number and its suffix; it is
    short enough for the sums of lengths to stay in [int], and the cursor
    is in the text. *)
Record wf_box (number : QString) (sb : ContextAwareSpinBox) : Prop := mk_wf_box {
  wf_text : text sb = prefix sb ++ number ++ suffix sb;
  wf_fits : 2 * Z.of_nat (length (text sb)) <= Int.max_int;
  wf_cursor : 0 <= cursorPosition sb <= Z.of_nat (length (text sb))
}.

(** The decimals shown: what follows the separator. *)
Definition decimals (sb : ContextAwareSpinBox) : Z :=
  Z.max 0 (decimalLength sb - 1).

(** Same line edit: two states agree on everything the step depends on. *)
Definition same_edit (a b : ContextAwareSpinBox) : Prop :=
  prefix a = prefix b /\ suffix a = suffix b /\ text a = text b /\
  cursorPosition a = cursorPosition b /\ m_decimSep a = m_decimSep b.

(** An exact model of the two library calls, for the examples: the
    power of ten as a rational and the search for its exponent. *)
Definition pow10Q (k : Z) : Q := Qpower (Qmake 10 1) k.

Definition floor_log10Q (x : Q) : Z :=
  List.last
    (List.filter (fun e => Qle_bool (pow10Q e) x) (seqZ (-20) 41)) (-21).

Definition qstr (s : string) : QString := list_ascii_of_string s.

(** The box of the comment in [currentStep]: [1387.01]. *)
Definition box_1387 (cursor : Z) : ContextAwareSpinBox :=
  mkSpinBox [] [] (qstr "1387.01") cursor "."%char false 0.

(** The same number between a prefix and a suffix. *)
Definition box_hz (cursor : Z) : ContextAwareSpinBox :=
  mkSpinBox (qstr "f = ") (qstr " Hz") (qstr "f = 1387.01 Hz") cursor
    "."%char false 0.

End SpinBox.

(** *** Sample data *)

Definition f32 (z : Z) : float := F32.of_int z.

(** A zeroed line of 4 bins: what [setResolution(4)] leaves. *)
Definition zeroLine4 : GLLine := mkGLLine 3 (replicate 8 F32.zero).

(** A zeroed line of 2 bins. *)
Definition zeroLine2 : GLLine := mkGLLine 2 (replicate 4 F32.zero).

(** A max-pyramid over the bins 1, 5, 2, 0. *)
Definition maxLine4 : GLLine :=
  mkGLLine 3 [f32 1; f32 5; f32 2; f32 0; f32 5; f32 2; f32 5; f32 0].

(** A line of 4 bins with arbitrary content. *)
Definition someLine4 : GLLine :=
  mkGLLine 3 [f32 1; f32 5; f32 2; f32 0; f32 3; f32 1; f32 2; f32 0].

Definition samples5 : list float := [f32 1; f32 3; f32 5; f32 7; f32 9].

Definition rows5 : list (list float) :=
  [[f32 1]; [f32 2]; [f32 3]; [f32 4]; [f32 5]].

(** * Properties *)

(** *** Sanity checks on the layout comment: CX, BBCX, AAAABBCX *)

Example of_int_one : f32 1 = F32.one.
Proof. reflexivity. Qed.

Example half_is_half : F32.div F32.one (f32 2) = F32.half.
Proof. vm_compute. reflexivity. Qed.

Example setResolution_4 :
  setResolution 4 emptyLine = Done (mkGLLine 3 (replicate 8 F32.zero)).
Proof. reflexivity. Qed.

Example setValueMax_4 :
  (do l <- setResolution 4 emptyLine; setValueMax 2 (f32 5) l)
  = Done (mkGLLine 3 [f32 0; f32 0; f32 5; f32 0; f32 0; f32 5; f32 5; f32 0]).
Proof. vm_compute. reflexivity. Qed.

Example setValueMean_4 :
  (do l <- setResolution 4 emptyLine; setValueMean 2 (f32 8) l)
  = Done (mkGLLine 3 [f32 0; f32 0; f32 8; f32 0; f32 0; f32 4; f32 2; f32 0]).
Proof. vm_compute. reflexivity. Qed.

(** ** Arithmetic of powers of two and of machine integers *)

Lemma pow2_succ (n : nat) : 2 ^ Z.of_nat (S n) = 2 * 2 ^ Z.of_nat n.
Proof. rewrite Nat2Z.inj_succ, Z.pow_succ_r by lia. reflexivity. Qed.

Lemma pow2_pos (n : nat) : 0 < 2 ^ Z.of_nat n.
Proof. apply Z.pow_pos_nonneg; lia. Qed.

Lemma pow2_le (n m : nat) : (n <= m)%nat -> 2 ^ Z.of_nat n <= 2 ^ Z.of_nat m.
Proof. intros H. apply Z.pow_le_mono_r; lia. Qed.

Lemma shiftr1_div (x : Z) : Z.shiftr x 1 = x / 2.
Proof. rewrite Z.shiftr_div_pow2 by lia. reflexivity. Qed.

Lemma shiftr1_pow2 (n : nat) : Z.shiftr (2 ^ Z.of_nat (S n)) 1 = 2 ^ Z.of_nat n.
Proof.
  rewrite shiftr1_div, pow2_succ, Z.mul_comm, Z.div_mul by lia. reflexivity.
Qed.

Lemma wrap_small (z : Z) : Int.in_range z -> Int.wrap z = z.
Proof.
  unfold Int.in_range, Int.min_int, Int.max_int, Int.wrap. intros H.
  rewrite Z.mod_small; lia.
Qed.

Lemma to_size_t_small (z : Z) : 0 <= z < 2 ^ 64 -> Int.to_size_t z = z.
Proof. intros H. unfold Int.to_size_t. apply Z.mod_small. exact H. Qed.

Lemma int_add_small (a b : Z) :
  0 <= a + b <= Int.max_int -> Int.add a b = a + b.
Proof.
  intros H. unfold Int.add. apply wrap_small.
  unfold Int.in_range, Int.min_int, Int.max_int in *. lia.
Qed.

Lemma offset_small (a b : Z) :
  0 <= a + b <= Int.max_int ->
  Int.to_size_t (Int.add a b) = a + b.
Proof.
  intros H. rewrite int_add_small by exact H. apply to_size_t_small.
  unfold Int.max_int in H. lia.
Qed.

(** ** The layout *)

Lemma level_width_0 (r : Z) : level_width r 0 = r.
Proof. unfold level_width. apply Z.shiftr_0_r. Qed.

Lemma level_width_S (r : Z) (k : nat) :
  level_width r (S k) = level_width (Z.shiftr r 1) k.
Proof.
  unfold level_width. rewrite Z.shiftr_shiftr by lia.
  f_equal. lia.
Qed.

Lemma ancestor_0 (i : Z) : ancestor i 0 = i.
Proof. unfold ancestor. apply Z.shiftr_0_r. Qed.

Lemma ancestor_S (i : Z) (k : nat) :
  ancestor i (S k) = ancestor (Z.shiftr i 1) k.
Proof.
  unfold ancestor. rewrite Z.shiftr_shiftr by lia.
  f_equal. lia.
Qed.

Lemma level_width_pow2 (n k : nat) :
  (k <= n)%nat -> level_width (2 ^ Z.of_nat n) k = 2 ^ Z.of_nat (n - k).
Proof.
  revert n. induction k as [|k IH]; intros n Hk.
  - rewrite level_width_0. f_equal. lia.
  - destruct n as [|n]; [lia|].
    rewrite level_width_S, shiftr1_pow2, IH by lia. reflexivity.
Qed.

Lemma ancestor_bounds (n k : nat) (i : Z) :
  (k <= n)%nat -> 0 <= i < 2 ^ Z.of_nat n ->
  0 <= ancestor i k < 2 ^ Z.of_nat (n - k).
Proof.
  revert n i. induction k as [|k IH]; intros n i Hk Hi.
  - rewrite ancestor_0. replace (n - 0)%nat with n by lia. exact Hi.
  - destruct n as [|n]; [lia|].
    rewrite ancestor_S. apply IH; [lia|].
    rewrite shiftr1_div. rewrite pow2_succ in Hi.
    split; [apply Z.div_pos; lia | apply Z.div_lt_upper_bound; lia].
Qed.

(** Levels follow one another: [level_base] grows by the width of the
    level it passes. *)
Lemma level_base_S (r : Z) (k : nat) :
  level_base r (S k) = level_base r k + level_width r k.
Proof.
  revert r. induction k as [|k IH]; intros r.
  - simpl. rewrite level_width_0. lia.
  - change (level_base r (S (S k))) with (r + level_base (Z.shiftr r 1) (S k)).
    rewrite IH, level_width_S. simpl. lia.
Qed.

(** Closed form of the level offsets of a line of resolution [2^n]. *)
Lemma level_base_pow2 (n k : nat) :
  (k <= S n)%nat ->
  level_base (2 ^ Z.of_nat n) k = 2 * 2 ^ Z.of_nat n - 2 ^ Z.of_nat (S n - k).
Proof.
  induction k as [|k IH]; intros Hk.
  - simpl level_base. replace (S n - 0)%nat with (S n) by lia.
    rewrite pow2_succ. lia.
  - rewrite level_base_S, IH, level_width_pow2 by lia.
    replace (S n - k)%nat with (S (n - k)) by lia.
    replace (S n - S k)%nat with (n - k)%nat by lia.
    rewrite pow2_succ. lia.
Qed.

(** ** The walk from a bin to the root *)

Lemma setValueMax_loop_climb (l : nat) (p index res : Z) (val : float)
    (d : list float) (k : nat) :
  setValueMax_loop l p index res val d
  = climb (fun _ x => F32.fmaxf val x) k l p index res d.
Proof.
  revert p index res d k. induction l as [|l IH]; intros p index res d k.
  - reflexivity.
  - simpl. destruct (d !! _); [apply IH | reflexivity].
Qed.

Lemma setValueMean_loop_climb (l : nat) (p index res : Z) (val : float)
    (d : list float) (k : nat) :
  setValueMean_loop l p index res (weight k) val d
  = climb (fun j x => F32.add x (F32.mul (weight j) val)) k l p index res d.
Proof.
  revert p index res d k. induction l as [|l IH]; intros p index res d k.
  - reflexivity.
  - simpl. destruct (d !! _); [|reflexivity].
    apply (IH _ _ _ _ (S k)).
Qed.

(** The loop succeeds exactly when the offsets it visits lie in the
    buffer; what it stores plays no part in where it goes. *)
Lemma climb_done_iff (f : nat -> float -> float) (k l : nat)
    (p index res : Z) (d : list float) :
  (exists d', climb f k l p index res d = Done d')
  <-> Forall (fun i => 0 <= i < Z.of_nat (length d)) (accessed l p index res).
Proof.
  revert k p index res d. induction l as [|l IH]; intros k p index res d.
  - simpl. split; [intros _; constructor | intros _; eauto].
  - simpl.
    assert (Hnn : 0 <= Int.to_size_t (Int.add p index)).
    { unfold Int.to_size_t. apply Z.mod_pos_bound. lia. }
    destruct (d !! Z.to_nat (Int.to_size_t (Int.add p index))) as [x|] eqn:Hx.
    + rewrite IH, length_insert. apply lookup_lt_Some in Hx.
      split.
      * intros H. constructor; [lia | exact H].
      * intros H. inversion H; assumption.
    + apply lookup_ge_None in Hx. split.
      * intros [d' Hd']. discriminate.
      * intros H. inversion H; subst. lia.
Qed.

Lemma path_cell_0 (p r index : Z) : path_cell p r index 0 = Z.to_nat (p + index).
Proof. unfold path_cell. simpl. rewrite ancestor_0. f_equal. lia. Qed.

Lemma path_cell_S (p r index : Z) (j : nat) :
  path_cell p r index (S j)
  = path_cell (p + r) (Z.shiftr r 1) (Z.shiftr index 1) j.
Proof. unfold path_cell. simpl. rewrite ancestor_S. f_equal. lia. Qed.

Lemma path_cell_ge (p index : Z) (m j : nat) :
  0 <= p -> 0 <= index < 2 ^ Z.of_nat m -> (j <= m)%nat ->
  (Z.to_nat p <= path_cell p (2 ^ Z.of_nat m) index j)%nat.
Proof.
  intros Hp Hi Hj. unfold path_cell.
  pose proof (ancestor_bounds m j index Hj Hi) as Ha.
  rewrite level_base_pow2 by lia.
  pose proof (pow2_le (S m - j) (S m) ltac:(lia)) as Hle.
  rewrite pow2_succ in Hle. lia.
Qed.

Lemma climb_S (f : nat -> float -> float) (k l : nat) (p index res : Z)
    (d : list float) :
  climb f k (S l) p index res d
  = match d !! Z.to_nat (Int.to_size_t (Int.add p index)) with
    | None => Undefined
    | Some x =>
        climb f (S k) l (Int.add p res) (Int.shr index 1) (Int.shr res 1)
          (<[Z.to_nat (Int.to_size_t (Int.add p index)) := f k x]> d)
    end.
Proof. reflexivity. Qed.

(** What the walk does to the buffer: the ancestor of every level gets
    its new value, every other cell keeps its content. *)
Lemma climb_spec (f : nat -> float -> float) (m : nat) :
  forall (k : nat) (p index : Z) (d : list float),
    0 <= index < 2 ^ Z.of_nat m ->
    0 <= p ->
    p + 2 * 2 ^ Z.of_nat m <= Z.of_nat (length d) ->
    p + 2 * 2 ^ Z.of_nat m <= Int.max_int ->
    exists d',
      climb f k (S m) p index (2 ^ Z.of_nat m) d = Done d' /\
      length d' = length d /\
      (forall j, (j <= m)%nat ->
         d' !! path_cell p (2 ^ Z.of_nat m) index j
         = f (k + j)%nat <$> d !! path_cell p (2 ^ Z.of_nat m) index j) /\
      (forall c : nat,
         (forall j, (j <= m)%nat -> c <> path_cell p (2 ^ Z.of_nat m) index j) ->
         d' !! c = d !! c).
Proof.
  induction m as [|m IH]; intros k p index d Hi Hp Hlen Hmax.
  - change (2 ^ Z.of_nat 0) with 1 in *.
    assert (index = 0) by lia. subst index.
    cbn [climb]. rewrite offset_small by lia.
    destruct (lookup_lt_is_Some_2 d (Z.to_nat (p + 0)) ltac:(lia)) as [x Hx].
    rewrite Hx. eexists. split; [reflexivity|].
    split; [apply length_insert|]. split.
    + intros j Hj. assert (j = 0%nat) by lia. subst j.
      rewrite path_cell_0, Hx, Nat.add_0_r. simpl.
      apply list_lookup_insert_eq. apply lookup_lt_Some in Hx. exact Hx.
    + intros c Hc. specialize (Hc 0%nat ltac:(lia)).
      rewrite path_cell_0 in Hc. apply list_lookup_insert_ne. congruence.
  - pose proof (pow2_pos m) as Hpos. rewrite pow2_succ in *.
    rewrite climb_S. rewrite offset_small by lia.
    destruct (lookup_lt_is_Some_2 d (Z.to_nat (p + index)) ltac:(lia))
      as [x Hx].
    rewrite Hx. rewrite int_add_small by lia.
    unfold Int.shr. rewrite <- pow2_succ, shiftr1_pow2.
    set (d1 := <[Z.to_nat (p + index) := f k x]> d).
    assert (Hidx : 0 <= Z.shiftr index 1 < 2 ^ Z.of_nat m).
    { rewrite shiftr1_div.
      split; [apply Z.div_pos; lia | apply Z.div_lt_upper_bound; lia]. }
    destruct (IH (S k) (p + 2 ^ Z.of_nat (S m)) (Z.shiftr index 1) d1)
      as (d' & Hrun & Hlen' & Hpath & Hframe).
    { exact Hidx. }
    { rewrite pow2_succ. lia. }
    { unfold d1. rewrite length_insert, pow2_succ. lia. }
    { rewrite pow2_succ. lia. }
    exists d'. split; [exact Hrun|].
    split; [rewrite Hlen'; apply length_insert|].
    assert (Habove : forall j, (j <= m)%nat ->
              (Z.to_nat (p + index)
               < path_cell (p + 2 ^ Z.of_nat (S m)) (2 ^ Z.of_nat m)
                   (Z.shiftr index 1) j)%nat).
    { intros j Hj.
      pose proof (path_cell_ge (p + 2 ^ Z.of_nat (S m)) (Z.shiftr index 1)
                    m j ltac:(rewrite pow2_succ; lia) Hidx Hj) as Hge.
      rewrite pow2_succ in *. lia. }
    split.
    + intros [|j] Hj.
      * rewrite path_cell_0, Hx, Nat.add_0_r. simpl.
        rewrite Hframe.
        -- apply list_lookup_insert_eq. apply lookup_lt_Some in Hx. exact Hx.
        -- intros j Hj' Heq. specialize (Habove j Hj'). lia.
      * rewrite path_cell_S, shiftr1_pow2.
        rewrite Hpath by lia.
        replace (S k + j)%nat with (k + S j)%nat by lia.
        f_equal. apply list_lookup_insert_ne.
        specialize (Habove j ltac:(lia)). lia.
    + intros c Hc. rewrite Hframe.
      * apply list_lookup_insert_ne.
        specialize (Hc 0%nat ltac:(lia)). rewrite path_cell_0 in Hc. congruence.
      * intros j Hj. specialize (Hc (S j) ltac:(lia)).
        rewrite path_cell_S, shiftr1_pow2 in Hc. exact Hc.
Qed.

(** ** Well-formed lines *)

Lemma resolution_of_size (l1 l2 : GLLine) :
  length (data l1) = length (data l2) -> resolution l1 = resolution l2.
Proof. unfold resolution, allocation, size. intros ->. reflexivity. Qed.

(** A buffer of [2 * 2^n] floats whose [resolution()] is [2^n] has at most
    [2^29] bins: beyond that [allocation()] does not fit in an [int]. *)
Lemma wf_line_bound (n : nat) (l : GLLine) : wf_line n l -> (n <= 29)%nat.
Proof.
  intros [_ Hsize Hres].
  destruct (decide (n <= 29)%nat) as [|Hn]; [assumption | exfalso].
  unfold resolution, resolutionFor, allocation, Int.of_size_t in Hres.
  rewrite Hsize in Hres. unfold Int.shr, Int.wrap in Hres.
  pose proof (pow2_pos n) as Hpos.
  destruct (decide (n = 30%nat)) as [->|Hn'].
  - vm_compute in Hres. discriminate.
  - replace n with (31 + (n - 31))%nat in Hres at 1 by lia.
    rewrite Nat2Z.inj_add, Z.pow_add_r in Hres by lia.
    replace (2 * (2 ^ Z.of_nat 31 * 2 ^ Z.of_nat (n - 31)) + 2 ^ 31)
      with (2 ^ 31 + 2 ^ Z.of_nat (n - 31) * 2 ^ 32) in Hres
      by (change (2 ^ Z.of_nat 31) with (2 ^ 31);
          change (2 ^ 32) with (2 * 2 ^ 31); lia).
    rewrite Z.mod_add in Hres by lia.
    change (Z.shiftr (2 ^ 31 mod 2 ^ 32 - 2 ^ 31) 1) with 0 in Hres. lia.
Qed.

Lemma wf_line_max (n : nat) (l : GLLine) :
  wf_line n l -> 2 * 2 ^ Z.of_nat n <= Int.max_int.
Proof.
  intros Hwf. pose proof (wf_line_bound n l Hwf) as Hn.
  pose proof (pow2_le n 29 Hn) as Hle.
  change (2 ^ Z.of_nat 29) with 536870912 in Hle.
  unfold Int.max_int. lia.
Qed.

Lemma wf_line_length (n : nat) (l : GLLine) :
  wf_line n l -> Z.of_nat (length (data l)) = 2 * 2 ^ Z.of_nat n.
Proof. intros [_ Hsize _]. exact Hsize. Qed.

Lemma wf_line_same_shape (n : nat) (l l' : GLLine) :
  wf_line n l -> levels l' = levels l ->
  length (data l') = length (data l) -> wf_line n l'.
Proof.
  intros [Hlev Hsize Hres] Hl Hd. split.
  - rewrite Hl. exact Hlev.
  - unfold size in *. rewrite Hd. exact Hsize.
  - rewrite (resolution_of_size l' l Hd). exact Hres.
Qed.

Lemma cell_path (n : nat) (l : GLLine) (index : Z) (k : nat) :
  wf_line n l ->
  cell l k (ancestor index k) = path_cell 0 (2 ^ Z.of_nat n) index k.
Proof.
  intros [_ _ Hres]. unfold cell, path_cell. rewrite Hres. f_equal.
Qed.

(** The walk on a well-formed line, in terms of levels and bins. *)
Lemma climb_line (f : nat -> float -> float) (n : nat) (l : GLLine)
    (index : Z) :
  wf_line n l -> 0 <= index < 2 ^ Z.of_nat n ->
  exists d',
    climb f 0 (Z.to_nat (levels l)) 0 index (resolution l) (data l) = Done d' /\
    length d' = length (data l) /\
    (forall k, (k <= n)%nat ->
       d' !! cell l k (ancestor index k)
       = f k <$> data l !! cell l k (ancestor index k)) /\
    (forall c : nat,
       (forall k, (k <= n)%nat -> c <> cell l k (ancestor index k)) ->
       d' !! c = data l !! c).
Proof.
  intros Hwf Hi.
  pose proof (wf_line_max n l Hwf) as Hmax.
  pose proof (wf_line_length n l Hwf) as Hlen.
  destruct Hwf as [Hlev Hsize Hres].
  assert (Hwf : wf_line n l) by (split; assumption).
  rewrite Hlev, Hres.
  replace (Z.to_nat (Z.of_nat n + 1)) with (S n) by lia.
  destruct (climb_spec f n 0%nat 0 index (data l) Hi ltac:(lia) ltac:(lia)
              ltac:(lia)) as (d' & Hrun & Hlen' & Hpath & Hframe).
  exists d'. split; [exact Hrun|]. split; [exact Hlen'|]. split.
  - intros k Hk. rewrite (cell_path n l index k Hwf). apply Hpath. exact Hk.
  - intros c Hc. apply Hframe. intros j Hj.
    rewrite <- (cell_path n l index j Hwf). apply Hc. exact Hj.
Qed.

Lemma setValueMax_line (n : nat) (l : GLLine) (index : Z) (val : float) :
  wf_line n l -> 0 <= index < 2 ^ Z.of_nat n ->
  exists l',
    setValueMax index val l = Done l' /\
    wf_line n l' /\
    (forall k, (k <= n)%nat ->
       bin l' k (ancestor index k)
       = F32.fmaxf val <$> bin l k (ancestor index k)) /\
    (forall c : nat,
       (forall k, (k <= n)%nat -> c <> cell l k (ancestor index k)) ->
       data l' !! c = data l !! c).
Proof.
  intros Hwf Hi.
  destruct (climb_line (fun _ x => F32.fmaxf val x) n l index Hwf Hi)
    as (d' & Hrun & Hlen & Hpath & Hframe).
  exists (mkGLLine (levels l) d'). unfold setValueMax.
  rewrite (setValueMax_loop_climb _ _ _ _ _ _ 0%nat), Hrun. simpl.
  split; [reflexivity|].
  assert (Hwf' : wf_line n (mkGLLine (levels l) d'))
    by (apply (wf_line_same_shape n l); [assumption | reflexivity | exact Hlen]).
  split; [exact Hwf'|]. split; [|exact Hframe].
  intros k Hk. unfold bin, cell.
  rewrite (resolution_of_size (mkGLLine (levels l) d') l Hlen).
  apply Hpath. exact Hk.
Qed.

Lemma setValueMean_line (n : nat) (l : GLLine) (index : Z) (val : float) :
  wf_line n l -> 0 <= index < 2 ^ Z.of_nat n ->
  exists l',
    setValueMean index val l = Done l' /\
    wf_line n l' /\
    (forall k, (k <= n)%nat ->
       bin l' k (ancestor index k)
       = (fun x => F32.add x (F32.mul (weight k) val))
           <$> bin l k (ancestor index k)) /\
    (forall c : nat,
       (forall k, (k <= n)%nat -> c <> cell l k (ancestor index k)) ->
       data l' !! c = data l !! c).
Proof.
  intros Hwf Hi.
  destruct (climb_line (fun j x => F32.add x (F32.mul (weight j) val))
              n l index Hwf Hi) as (d' & Hrun & Hlen & Hpath & Hframe).
  exists (mkGLLine (levels l) d'). unfold setValueMean.
  change F32.one with (weight 0).
  rewrite (setValueMean_loop_climb _ _ _ _ _ _ 0%nat), Hrun. simpl.
  split; [reflexivity|].
  assert (Hwf' : wf_line n (mkGLLine (levels l) d'))
    by (apply (wf_line_same_shape n l); [assumption | reflexivity | exact Hlen]).
  split; [exact Hwf'|]. split; [|exact Hframe].
  intros k Hk. unfold bin, cell.
  rewrite (resolution_of_size (mkGLLine (levels l) d') l Hlen).
  apply Hpath. exact Hk.
Qed.

(** ** Order on binary32 floats *)

Ltac float_cases :=
  unfold fle, feq, not_nan, F32.leb, F32.ltb, F32.eqb, SFleb, SFltb, SFeqb,
    SFcompare, F32.is_nan in *;
  repeat match goal with
    | x : float |- _ => destruct x as [[]|[]| |[] ? ?]
    | x : spec_float |- _ => destruct x as [[]|[]| |[] ? ?]
    end;
  simpl in *; try congruence; try tauto.

Ltac compare_cases :=
  repeat match goal with
    | H : context [Pos.compare_cont Eq ?a ?b] |- _ =>
        change (Pos.compare_cont Eq a b) with (Pos.compare a b) in H
    | |- context [Pos.compare_cont Eq ?a ?b] =>
        change (Pos.compare_cont Eq a b) with (Pos.compare a b)
    end;
  repeat match goal with
    | H : context [Z.compare ?a ?b] |- _ =>
        destruct (Z.compare_spec a b); simpl in H; try congruence
    | |- context [Z.compare ?a ?b] =>
        destruct (Z.compare_spec a b); simpl; try congruence
    | H : context [Pos.compare ?a ?b] |- _ =>
        destruct (Pos.compare_spec a b); simpl in H; try congruence
    | |- context [Pos.compare ?a ?b] =>
        destruct (Pos.compare_spec a b); simpl; try congruence
    end;
  try lia.

Lemma fle_not_nan (x y : float) : fle x y -> not_nan x /\ not_nan y.
Proof. float_cases. Qed.

Lemma fle_refl (x : float) : not_nan x -> fle x x.
Proof. float_cases; compare_cases. Qed.

Lemma fle_trans (x y z : float) : fle x y -> fle y z -> fle x z.
Proof. float_cases; compare_cases. Qed.

Lemma feq_fle (x y : float) : feq x y <-> fle x y /\ fle y x.
Proof. float_cases; compare_cases; intuition congruence. Qed.

Lemma ltb_false_fle (x y : float) :
  not_nan x -> not_nan y -> F32.ltb x y = false -> fle y x.
Proof. float_cases; compare_cases. Qed.

Lemma ltb_true_fle (x y : float) : F32.ltb x y = true -> fle x y.
Proof. float_cases; compare_cases. Qed.

Lemma fmaxf_nan_l (y : float) : F32.fmaxf S754_nan y = y.
Proof. reflexivity. Qed.

Lemma fmaxf_nan_r (x : float) : F32.fmaxf x S754_nan = x.
Proof. destruct x; reflexivity. Qed.

Lemma fmaxf_not_nan (x y : float) :
  not_nan x -> not_nan y ->
  F32.fmaxf x y = if F32.ltb y x then x else y.
Proof. intros Hx Hy. destruct x, y; try reflexivity; discriminate. Qed.

Lemma fmaxf_cases (x y : float) : F32.fmaxf x y = x \/ F32.fmaxf x y = y.
Proof.
  destruct x, y; simpl; auto;
    match goal with |- context [if ?c then _ else _] => destruct c; auto end.
Qed.

Lemma fle_fmaxf_l (x y : float) : not_nan x -> fle x (F32.fmaxf x y).
Proof.
  intros Hx. destruct (F32.is_nan y) eqn:Hy.
  - destruct y; try discriminate. rewrite fmaxf_nan_r. apply fle_refl, Hx.
  - rewrite fmaxf_not_nan by assumption.
    destruct (F32.ltb y x) eqn:Hlt.
    + apply fle_refl, Hx.
    + apply ltb_false_fle; assumption.
Qed.

Lemma fle_fmaxf_r (x y : float) : not_nan y -> fle y (F32.fmaxf x y).
Proof.
  intros Hy. destruct (F32.is_nan x) eqn:Hx.
  - destruct x; try discriminate. rewrite fmaxf_nan_l. apply fle_refl, Hy.
  - rewrite fmaxf_not_nan by assumption.
    destruct (F32.ltb y x) eqn:Hlt.
    + apply ltb_true_fle, Hlt.
    + apply fle_refl, Hy.
Qed.

Lemma fmaxf_lub (x y z : float) :
  fle x z -> fle y z -> fle (F32.fmaxf x y) z.
Proof. intros Hx Hy. destruct (fmaxf_cases x y) as [-> | ->]; assumption. Qed.

Lemma fmaxf_is_nan (x y : float) :
  F32.is_nan (F32.fmaxf x y) = F32.is_nan x && F32.is_nan y.
Proof.
  destruct x, y; simpl; try reflexivity;
    match goal with |- context [if ?c then _ else _] => destruct c; reflexivity end.
Qed.

(** Pushing a new sample into a node whose value is the maximum of its
    children: the node and the updated child stay consistent. *)
Lemma fmaxf_push_l (v a b p : float) :
  feq p (F32.fmaxf a b) ->
  feq (F32.fmaxf v p) (F32.fmaxf (F32.fmaxf v a) b).
Proof.
  intros H. pose proof H as Hpq. apply feq_fle in Hpq as [H1 H2].
  destruct (fle_not_nan _ _ H1) as [Hp Hq].
  destruct (F32.is_nan v) eqn:Hv.
  { destruct v; try discriminate. rewrite !fmaxf_nan_l. exact H. }
  assert (Hva : not_nan (F32.fmaxf v a)).
  { unfold not_nan. rewrite fmaxf_is_nan, Hv. reflexivity. }
  assert (Hvab : not_nan (F32.fmaxf (F32.fmaxf v a) b)).
  { unfold not_nan. rewrite fmaxf_is_nan, Hva. reflexivity. }
  apply feq_fle. split.
  - apply fmaxf_lub.
    + apply (fle_trans _ (F32.fmaxf v a)); [apply fle_fmaxf_l, Hv|].
      apply fle_fmaxf_l, Hva.
    + apply (fle_trans _ _ _ H1).
      destruct (fmaxf_cases a b) as [E|E]; rewrite E in *.
      * apply (fle_trans _ (F32.fmaxf v a)); [apply fle_fmaxf_r, Hq|].
        apply fle_fmaxf_l, Hva.
      * apply fle_fmaxf_r, Hq.
  - destruct (fmaxf_cases (F32.fmaxf v a) b) as [E|E]; rewrite E in *.
    + destruct (fmaxf_cases v a) as [E'|E']; rewrite E' in *.
      * apply fle_fmaxf_l, Hv.
      * apply (fle_trans _ (F32.fmaxf a b)); [apply fle_fmaxf_l, Hva|].
        apply (fle_trans _ _ _ H2). apply fle_fmaxf_r, Hp.
    + apply (fle_trans _ (F32.fmaxf a b)); [apply fle_fmaxf_r, Hvab|].
      apply (fle_trans _ _ _ H2). apply fle_fmaxf_r, Hp.
Qed.

Lemma fmaxf_push_r (v a b p : float) :
  feq p (F32.fmaxf a b) ->
  feq (F32.fmaxf v p) (F32.fmaxf a (F32.fmaxf v b)).
Proof.
  intros H. pose proof H as Hpq. apply feq_fle in Hpq as [H1 H2].
  destruct (fle_not_nan _ _ H1) as [Hp Hq].
  destruct (F32.is_nan v) eqn:Hv.
  { destruct v; try discriminate. rewrite !fmaxf_nan_l. exact H. }
  assert (Hvb : not_nan (F32.fmaxf v b)).
  { unfold not_nan. rewrite fmaxf_is_nan, Hv. reflexivity. }
  assert (Havb : not_nan (F32.fmaxf a (F32.fmaxf v b))).
  { unfold not_nan. rewrite fmaxf_is_nan, Hvb. apply andb_false_r. }
  apply feq_fle. split.
  - apply fmaxf_lub.
    + apply (fle_trans _ (F32.fmaxf v b)); [apply fle_fmaxf_l, Hv|].
      apply fle_fmaxf_r, Hvb.
    + apply (fle_trans _ _ _ H1).
      destruct (fmaxf_cases a b) as [E|E]; rewrite E in *.
      * apply fle_fmaxf_l, Hq.
      * apply (fle_trans _ (F32.fmaxf v b)); [apply fle_fmaxf_r, Hq|].
        apply fle_fmaxf_r, Hvb.
  - destruct (fmaxf_cases a (F32.fmaxf v b)) as [E|E]; rewrite E in *.
    + apply (fle_trans _ (F32.fmaxf a b)); [apply fle_fmaxf_l, Havb|].
      apply (fle_trans _ _ _ H2). apply fle_fmaxf_r, Hp.
    + destruct (fmaxf_cases v b) as [E'|E']; rewrite E' in *.
      * apply fle_fmaxf_l, Hv.
      * apply (fle_trans _ (F32.fmaxf a b)); [apply fle_fmaxf_r, Hvb|].
        apply (fle_trans _ _ _ H2). apply fle_fmaxf_r, Hp.
Qed.

(** ** Cells of the pyramid *)

Lemma cell_pow2 (n : nat) (l : GLLine) (k : nat) (i : Z) :
  wf_line n l -> (k <= n)%nat ->
  cell l k i = Z.to_nat (2 * 2 ^ Z.of_nat n - 2 * 2 ^ Z.of_nat (n - k) + i).
Proof.
  intros [_ _ Hres] Hk. unfold cell. rewrite Hres, level_base_pow2 by lia.
  replace (S n - k)%nat with (S (n - k)) by lia. rewrite pow2_succ.
  reflexivity.
Qed.

(** Distinct bins live in distinct cells. *)
Lemma cell_inj (n : nat) (l : GLLine) (k j : nat) (i i' : Z) :
  wf_line n l -> (k <= n)%nat -> (j <= n)%nat ->
  0 <= i < 2 ^ Z.of_nat (n - k) -> 0 <= i' < 2 ^ Z.of_nat (n - j) ->
  cell l k i = cell l j i' -> k = j /\ i = i'.
Proof.
  intros Hwf Hk Hj Hi Hi'.
  rewrite (cell_pow2 n l k i Hwf Hk), (cell_pow2 n l j i' Hwf Hj).
  pose proof (pow2_le (n - k) n ltac:(lia)) as Hkn.
  pose proof (pow2_le (n - j) n ltac:(lia)) as Hjn.
  intros Heq.
  destruct (Nat.lt_trichotomy k j) as [Hlt | [-> | Hlt]].
  - pose proof (pow2_le (S (n - j)) (n - k) ltac:(lia)) as H.
    rewrite pow2_succ in H. lia.
  - split; [reflexivity | lia].
  - pose proof (pow2_le (S (n - k)) (n - j) ltac:(lia)) as H.
    rewrite pow2_succ in H. lia.
Qed.

(** Every bin of every level is inside the buffer, below the padding
    cell. *)
Lemma cell_below_pad (n : nat) (l : GLLine) (k : nat) (i : Z) :
  wf_line n l -> (k <= n)%nat -> 0 <= i < 2 ^ Z.of_nat (n - k) ->
  (cell l k i < Z.to_nat (2 * 2 ^ Z.of_nat n - 1))%nat.
Proof.
  intros Hwf Hk Hi. rewrite (cell_pow2 n l k i Hwf Hk).
  pose proof (pow2_le (n - k) n ltac:(lia)) as Hkn.
  pose proof (pow2_pos (n - k)). lia.
Qed.

Lemma bin_is_Some (n : nat) (l : GLLine) (k : nat) (i : Z) :
  wf_line n l -> (k <= n)%nat -> 0 <= i < 2 ^ Z.of_nat (n - k) ->
  is_Some (bin l k i).
Proof.
  intros Hwf Hk Hi. unfold bin. apply lookup_lt_is_Some_2.
  pose proof (cell_below_pad n l k i Hwf Hk Hi).
  pose proof (wf_line_length n l Hwf). lia.
Qed.

Lemma ancestor_half (index : Z) (k : nat) :
  ancestor index (S k) = ancestor index k / 2.
Proof.
  unfold ancestor. rewrite <- shiftr1_div, Z.shiftr_shiftr by lia.
  f_equal. lia.
Qed.

(** A bin after [setValueMax]: the ancestor of each level takes the
    maximum with [val], the other bins are as before. *)
Lemma setValueMax_bin (n : nat) (l l' : GLLine) (index : Z) (val : float)
    (k : nat) (i : Z) :
  wf_line n l -> 0 <= index < 2 ^ Z.of_nat n ->
  setValueMax index val l = Done l' ->
  (k <= n)%nat -> 0 <= i < 2 ^ Z.of_nat (n - k) ->
  bin l' k i
  = if decide (i = ancestor index k) then F32.fmaxf val <$> bin l k i
    else bin l k i.
Proof.
  intros Hwf Hidx Hrun Hk Hi.
  destruct (setValueMax_line n l index val Hwf Hidx)
    as (l1 & Hrun1 & Hwf1 & Hpath & Hframe).
  rewrite Hrun in Hrun1. injection Hrun1 as <-.
  destruct (decide (i = ancestor index k)) as [-> | Hne].
  - apply Hpath. exact Hk.
  - unfold bin.
    assert (Hc : cell l' k i = cell l k i).
    { unfold cell. rewrite (wf_resolution n l Hwf), (wf_resolution n l' Hwf1).
      reflexivity. }
    rewrite Hc. apply Hframe. intros j Hj Heq.
    apply (cell_inj n l k j) in Heq as [-> Heq]; try assumption.
    + contradiction.
    + apply ancestor_bounds; assumption.
Qed.

Lemma max_pyramidb_sound (l : GLLine) : max_pyramidb l = true -> max_pyramid l.
Proof.
  unfold max_pyramidb, max_pyramid. intros H k i Hk Hi.
  rewrite forallb_forall in H. specialize (H k).
  rewrite forallb_forall in H.
  assert (Hb : max_nodeb l k i = true).
  { apply H.
    - apply in_seq. lia.
    - apply list_elem_of_In, elem_of_seqZ. lia. }
  unfold max_nodeb in Hb. unfold max_node.
  destruct (bin l (S k) i) as [x|]; [|discriminate].
  destruct (bin l k (2 * i)) as [a|]; [|discriminate].
  destruct (bin l k (2 * i + 1)) as [b|]; [|discriminate].
  exists x, a, b. auto.
Qed.

(** ** The max-pyramid invariant *)

(** C1. A line of power-of-two resolution [2^n] that satisfies the
    max-pyramid invariant (every bin of a level above the finest equals
    the maximum of its two children) still satisfies it after
    [setValueMax(index, val)] with [0 <= index < 2^n]; the call returns
    and the line keeps its shape. *)
Theorem setValueMax_preserves_max_pyramid (n : nat) (l : GLLine)
    (index : Z) (val : float) :
  wf_line n l ->
  max_pyramid l ->
  0 <= index < 2 ^ Z.of_nat n ->
  exists l',
    setValueMax index val l = Done l' /\ wf_line n l' /\ max_pyramid l'.
Proof.
  intros Hwf Hinv Hidx.
  destruct (setValueMax_line n l index val Hwf Hidx)
    as (l' & Hrun & Hwf' & _ & _).
  exists l'. split; [exact Hrun|]. split; [exact Hwf'|].
  intros k i Hk Hi.
  rewrite (wf_levels n l' Hwf') in Hk.
  rewrite (wf_resolution n l' Hwf'), level_width_pow2 in Hi by lia.
  assert (Hkn : (S k <= n)%nat) by lia.
  destruct (Hinv k i) as (x & a & b & Hx & Ha & Hb & Hmax).
  { rewrite (wf_levels n l Hwf). lia. }
  { rewrite (wf_resolution n l Hwf), level_width_pow2 by lia. exact Hi. }
  assert (Hw : 2 ^ Z.of_nat (n - k) = 2 * 2 ^ Z.of_nat (n - S k)).
  { replace (n - k)%nat with (S (n - S k)) by lia. apply pow2_succ. }
  unfold max_node.
  rewrite (setValueMax_bin n l l' index val (S k) i Hwf Hidx Hrun)
    by (lia || assumption).
  rewrite (setValueMax_bin n l l' index val k (2 * i) Hwf Hidx Hrun) by lia.
  rewrite (setValueMax_bin n l l' index val k (2 * i + 1) Hwf Hidx Hrun)
    by lia.
  rewrite Hx, Ha, Hb, ancestor_half.
  generalize (ancestor index k). intros A.
  pose proof (Z.div_mod A 2 ltac:(lia)) as Hdm.
  pose proof (Z.mod_pos_bound A 2 ltac:(lia)) as Hmb.
  destruct (decide (i = A / 2)) as [Hi2 | Hi2];
    destruct (decide (2 * i = A)) as [Hl | Hl];
    destruct (decide (2 * i + 1 = A)) as [Hr | Hr];
    try lia; simpl.
  - eexists _, _, _. repeat split. apply fmaxf_push_l, Hmax.
  - eexists _, _, _. repeat split. apply fmaxf_push_r, Hmax.
  - eexists _, _, _. repeat split. exact Hmax.
Qed.

Lemma setValueMax_preserves_max_pyramid_witness :
  exists l',
    setValueMax 2 (f32 7) maxLine4 = Done l' /\
    wf_line 2 l' /\ max_pyramid l'.
Proof.
  apply (setValueMax_preserves_max_pyramid 2).
  - split; reflexivity.
  - apply max_pyramidb_sound. vm_compute. reflexivity.
  - simpl. lia.
Defined.

(** ** Memory safety of the single-bin updates *)

Lemma accessed_length (l : nat) (p index res : Z) :
  length (accessed l p index res) = l.
Proof.
  revert p index res. induction l as [|l IH]; intros p index res.
  - reflexivity.
  - simpl. rewrite IH. reflexivity.
Qed.

(** [accesses] is what decides whether the updates stay in the buffer. *)
Lemma setValueMax_done_iff (index : Z) (val : float) (l : GLLine) :
  (exists l', setValueMax index val l = Done l')
  <-> Forall (fun i => 0 <= i < size l) (accesses index l).
Proof.
  unfold setValueMax, accesses, size.
  rewrite (setValueMax_loop_climb _ _ _ _ _ _ 0%nat).
  rewrite <- (climb_done_iff (fun _ x => F32.fmaxf val x) 0%nat).
  split.
  - intros [l' H]. destruct (climb _ _ _ _ _ _ _) as [d'| |]; try discriminate.
    eauto.
  - intros [d' ->]. simpl. eauto.
Qed.

Lemma setValueMean_done_iff (index : Z) (val : float) (l : GLLine) :
  (exists l', setValueMean index val l = Done l')
  <-> Forall (fun i => 0 <= i < size l) (accesses index l).
Proof.
  unfold setValueMean, accesses, size. change F32.one with (weight 0).
  rewrite (setValueMean_loop_climb _ _ _ _ _ _ 0%nat).
  rewrite <- (climb_done_iff
                (fun j x => F32.add x (F32.mul (weight j) val)) 0%nat).
  split.
  - intros [l' H]. destruct (climb _ _ _ _ _ _ _) as [d'| |]; try discriminate.
    eauto.
  - intros [d' ->]. simpl. eauto.
Qed.

(** C8. On a line of power-of-two resolution [r = 2^n >= 1] and for
    [0 <= index < r], [setValueMax(index, val)] and
    [setValueMean(index, val)] access the buffer [levels] times, every
    time at an offset in [0, 2 * r), and both return normally: neither
    reads nor writes past the [2 * r] floats of the buffer. *)
Theorem single_bin_updates_in_bounds (n : nat) (l : GLLine) (index : Z)
    (val : float) :
  wf_line n l ->
  0 <= index < 2 ^ Z.of_nat n ->
  1 <= resolution l /\
  size l = 2 * resolution l /\
  Forall (fun i => 0 <= i < 2 * resolution l) (accesses index l) /\
  length (accesses index l) = Z.to_nat (levels l) /\
  (exists l', setValueMax index val l = Done l') /\
  (exists l', setValueMean index val l = Done l').
Proof.
  intros Hwf Hidx.
  destruct (setValueMax_line n l index val Hwf Hidx) as (l1 & Hmax & _).
  destruct (setValueMean_line n l index val Hwf Hidx) as (l2 & Hmean & _).
  pose proof (pow2_pos n) as Hpos.
  rewrite (wf_resolution n l Hwf).
  split; [lia|]. split; [apply (wf_size n l Hwf)|]. split.
  - rewrite <- (wf_size n l Hwf). apply (setValueMax_done_iff index val).
    eauto.
  - split; [apply accessed_length|]. eauto.
Qed.

Lemma single_bin_updates_in_bounds_witness :
  1 <= resolution zeroLine4 /\
  size zeroLine4 = 2 * resolution zeroLine4 /\
  Forall (fun i => 0 <= i < 2 * resolution zeroLine4) (accesses 3 zeroLine4) /\
  length (accesses 3 zeroLine4) = Z.to_nat (levels zeroLine4) /\
  (exists l', setValueMax 3 (f32 9) zeroLine4 = Done l') /\
  (exists l', setValueMean 3 (f32 9) zeroLine4 = Done l').
Proof.
  apply (single_bin_updates_in_bounds 2).
  - split; reflexivity.
  - simpl. lia.
Defined.

(** ** The weights of [setValueMean] *)

Lemma weight_pow2_neg (k : nat) : (k <= 30)%nat -> weight k = F32.pow2_neg k.
Proof.
  intros Hk.
  do 31 (destruct k as [|k]; [vm_compute; reflexivity|]).
  lia.
Qed.

(** [pow2_neg k] is the float [1 / 2^k]. *)
Lemma pow2_neg_inverse (k : nat) :
  (k <= 30)%nat -> F32.div F32.one (f32 (2 ^ Z.of_nat k)) = F32.pow2_neg k.
Proof.
  intros Hk.
  do 31 (destruct k as [|k]; [vm_compute; reflexivity|]).
  lia.
Qed.

(** C4. On a line of power-of-two resolution [2^n] and for
    [0 <= index < 2^n], [setValueMean(index, val)] adds [val] times
    [2^-k] to bin [index >> k] of level [k], for every level [k] from 0
    to [levels - 1]: the weight is 1.0 at the finest level and is halved
    from each level to the next. *)
Theorem setValueMean_adds_weighted (n : nat) (l : GLLine) (index : Z)
    (val : float) :
  wf_line n l ->
  0 <= index < 2 ^ Z.of_nat n ->
  exists l',
    setValueMean index val l = Done l' /\
    forall k : nat,
      Z.of_nat k < levels l ->
      weight k = F32.pow2_neg k /\
      exists x,
        bin l k (ancestor index k) = Some x /\
        bin l' k (ancestor index k)
        = Some (F32.add x (F32.mul (F32.pow2_neg k) val)).
Proof.
  intros Hwf Hidx.
  destruct (setValueMean_line n l index val Hwf Hidx)
    as (l' & Hrun & Hwf' & Hpath & _).
  exists l'. split; [exact Hrun|].
  intros k Hk. rewrite (wf_levels n l Hwf) in Hk.
  pose proof (wf_line_bound n l Hwf) as Hn.
  assert (Hw : weight k = F32.pow2_neg k) by (apply weight_pow2_neg; lia).
  split; [exact Hw|].
  destruct (bin_is_Some n l k (ancestor index k) Hwf ltac:(lia)) as [x Hx].
  { apply ancestor_bounds; [lia | exact Hidx]. }
  exists x. split; [exact Hx|].
  rewrite Hpath, Hx, Hw by lia. reflexivity.
Qed.

Lemma setValueMean_adds_weighted_witness :
  exists l',
    setValueMean 2 (f32 8) someLine4 = Done l' /\
    forall k : nat,
      Z.of_nat k < levels someLine4 ->
      weight k = F32.pow2_neg k /\
      exists x,
        bin someLine4 k (ancestor 2 k) = Some x /\
        bin l' k (ancestor 2 k)
        = Some (F32.add x (F32.mul (F32.pow2_neg k) (f32 8))).
Proof.
  apply (setValueMean_adds_weighted 2).
  - split; reflexivity.
  - simpl. lia.
Defined.

(** ** [setResolution] *)

Lemma log2_up_bounds (res : Z) :
  0 < res < 2 ^ 30 -> 0 <= Z.log2_up res <= 30.
Proof.
  intros H. split; [apply Z.log2_up_nonneg|].
  apply Z.log2_up_le_pow2; lia.
Qed.

Lemma allocationFor_small (res : Z) :
  0 <= res < 2 ^ 30 -> allocationFor res = 2 * res.
Proof.
  intros H. unfold allocationFor, Int.shl.
  rewrite Z.shiftl_mul_pow2 by lia. change (2 ^ 1) with 2.
  rewrite wrap_small; [lia|].
  unfold Int.in_range, Int.min_int, Int.max_int. lia.
Qed.

(** [setResolution] does not look at what [res] is: every positive [res]
    whose double fits in an [int] is accepted. *)
Lemma setResolution_done (res : Z) (l : GLLine) :
  0 < res < 2 ^ 30 ->
  setResolution res l
  = Done (mkGLLine (Z.log2_up res + 1)
            (replicate (Z.to_nat (2 * res)) F32.zero)).
Proof.
  intros H. unfold setResolution, ceil_log2.
  destruct (Z.ltb_spec 0 res) as [_|]; [|lia]. simpl obind.
  pose proof (log2_up_bounds res H) as Hlog.
  rewrite int_add_small by (unfold Int.max_int; lia).
  rewrite allocationFor_small by lia.
  rewrite to_size_t_small by lia.
  unfold resize.
  destruct (Z.ltb_spec max_size (2 * res)) as [Hbig|_].
  { unfold max_size in Hbig. lia. }
  simpl. unfold initialize. simpl. f_equal. f_equal. f_equal.
  rewrite length_app, length_take, length_replicate. lia.
Qed.

Lemma log2_up_pow2 (n : nat) : Z.log2_up (2 ^ Z.of_nat n) = Z.of_nat n.
Proof. apply Z.log2_up_pow2. lia. Qed.

Lemma resolution_replicate (lv : Z) (r : Z) :
  0 <= r < 2 ^ 30 ->
  resolution (mkGLLine lv (replicate (Z.to_nat (2 * r)) F32.zero)) = r.
Proof.
  intros H. unfold resolution, resolutionFor, allocation, Int.of_size_t, size.
  simpl. rewrite length_replicate, Z2Nat.id by lia.
  rewrite wrap_small
    by (unfold Int.in_range, Int.min_int, Int.max_int; lia).
  unfold Int.shr. rewrite shiftr1_div, Z.mul_comm, Z.div_mul by lia.
  reflexivity.
Qed.

Lemma pow2_lt_30 (n : nat) : (n <= 29)%nat -> 0 < 2 ^ Z.of_nat n < 2 ^ 30.
Proof.
  intros Hn. split; [apply pow2_pos|].
  pose proof (pow2_le n 29 Hn) as H.
  change (2 ^ Z.of_nat 29) with 536870912 in H. lia.
Qed.

Lemma setResolution_wf (n : nat) (l0 l : GLLine) :
  Int.in_range (2 ^ Z.of_nat n) ->
  setResolution (2 ^ Z.of_nat n) l0 = Done l ->
  (n <= 29)%nat /\
  wf_line n l /\
  data l = replicate (Z.to_nat (2 * 2 ^ Z.of_nat n)) F32.zero.
Proof.
  intros Hint Hset.
  assert (Hn30 : (n <= 30)%nat).
  { destruct (decide (n <= 30)%nat) as [|Hbig]; [assumption | exfalso].
    pose proof (pow2_le 31 n ltac:(lia)) as H.
    change (2 ^ Z.of_nat 31) with 2147483648 in H.
    unfold Int.in_range, Int.max_int in Hint. lia. }
  assert (Hn : (n <= 29)%nat).
  { destruct (decide (n = 30%nat)) as [->|]; [exfalso | lia].
    vm_compute in Hset. discriminate. }
  split; [exact Hn|].
  pose proof (pow2_lt_30 n Hn) as Hr.
  rewrite setResolution_done in Hset by exact Hr.
  injection Hset as <-. split; [|reflexivity].
  split.
  - simpl. rewrite log2_up_pow2. reflexivity.
  - unfold size. simpl. rewrite length_replicate. lia.
  - apply resolution_replicate. lia.
Qed.

(** C3, as the code has it. For every power of two [res = 2^n] with
    [n <= 29], [setResolution(res)] returns and leaves a buffer of
    exactly [2 * res] floats, all equal to 0, with
    [levels = ceil(log2(res)) + 1 = n + 1], and [resolution()] returns
    [res]. The bound is that of [allocationFor]: [res << 1] must fit in
    an [int]. *)
Theorem setResolution_pow2 (n : nat) (l : GLLine) :
  (n <= 29)%nat ->
  exists l',
    setResolution (2 ^ Z.of_nat n) l = Done l' /\
    size l' = 2 * 2 ^ Z.of_nat n /\
    (forall i x, data l' !! i = Some x -> x = F32.zero) /\
    levels l' = Z.log2_up (2 ^ Z.of_nat n) + 1 /\
    levels l' = Z.of_nat n + 1 /\
    resolution l' = 2 ^ Z.of_nat n.
Proof.
  intros Hn. pose proof (pow2_lt_30 n Hn) as Hr.
  eexists. split; [apply setResolution_done; exact Hr|].
  split; [|split; [|split; [|split]]].
  - unfold size. simpl. rewrite length_replicate. lia.
  - simpl. intros i x Hx. apply lookup_replicate in Hx as [-> _]. reflexivity.
  - reflexivity.
  - simpl. rewrite log2_up_pow2. reflexivity.
  - apply resolution_replicate. lia.
Qed.

Lemma setResolution_pow2_witness :
  exists l',
    setResolution (2 ^ Z.of_nat 3) emptyLine = Done l' /\
    size l' = 2 * 2 ^ Z.of_nat 3 /\
    (forall i x, data l' !! i = Some x -> x = F32.zero) /\
    levels l' = Z.log2_up (2 ^ Z.of_nat 3) + 1 /\
    levels l' = Z.of_nat 3 + 1 /\
    resolution l' = 2 ^ Z.of_nat 3.
Proof. apply (setResolution_pow2 3). lia. Defined.

(** C3 fails at [res = 2^30], a power of two that an [int] holds:
    [allocationFor] overflows to [INT_MIN], the size handed to [resize]
    is beyond [max_size()], and the call ends in [std::length_error]
    instead of leaving a buffer of [2^31] floats. Whatever the overflow
    does, no buffer of [2^31] floats has [resolution() = 2^30]. *)
Lemma setResolution_pow2_30_fails :
  Int.in_range (2 ^ 30) /\
  setResolution (2 ^ 30) emptyLine = LengthError /\
  ~ (exists l',
       setResolution (2 ^ 30) emptyLine = Done l' /\
       size l' = 2 * 2 ^ 30 /\ resolution l' = 2 ^ 30) /\
  (forall l' : GLLine, size l' = 2 * 2 ^ 30 -> resolution l' <> 2 ^ 30).
Proof.
  split; [vm_compute; split; congruence|].
  split; [vm_compute; reflexivity|].
  split.
  - intros (l' & H & _). vm_compute in H. discriminate.
  - intros l' Hsize. unfold resolution, allocation. rewrite Hsize.
    vm_compute. discriminate.
Qed.

(** C7, as the code has it. [setResolution] has no check on [res]: for
    every [res] with [0 < res < 2^30], power of two or not, it returns
    normally with a zeroed buffer of [2 * res] floats and
    [levels = ceil(log2(res)) + 1]. *)
Theorem setResolution_unchecked (res : Z) (l : GLLine) :
  0 < res < 2 ^ 30 ->
  exists l',
    setResolution res l = Done l' /\
    levels l' = Z.log2_up res + 1 /\
    data l' = replicate (Z.to_nat (2 * res)) F32.zero /\
    resolution l' = res.
Proof.
  intros H. eexists. split; [apply setResolution_done; exact H|].
  split; [reflexivity|]. split; [reflexivity|].
  apply resolution_replicate. lia.
Qed.

Lemma setResolution_unchecked_witness :
  exists l',
    setResolution 6 emptyLine = Done l' /\
    levels l' = Z.log2_up 6 + 1 /\
    data l' = replicate (Z.to_nat (2 * 6)) F32.zero /\
    resolution l' = 6.
Proof. apply (setResolution_unchecked 6). lia. Defined.

(** C7 fails at [res = 3], which is not a power of two: the call
    completes normally and leaves a line of 3 bins and 3 levels in a
    buffer of 6 floats. *)
Lemma setResolution_3_completes :
  (forall n : nat, 3 <> 2 ^ Z.of_nat n) /\
  setResolution 3 emptyLine = Done (mkGLLine 3 (replicate 6 F32.zero)).
Proof.
  split; [|reflexivity].
  intros [|[|n]] H; try discriminate.
  rewrite !pow2_succ in H. pose proof (pow2_pos n). lia.
Qed.

(** ** What a single-bin update leaves alone *)

Lemma elem_of_ancestor_cells (n : nat) (l : GLLine) (index : Z) (c : nat) :
  wf_line n l ->
  c ∈ ancestor_cells l index
  <-> exists k, (k <= n)%nat /\ c = cell l k (ancestor index k).
Proof.
  intros Hwf. unfold ancestor_cells. rewrite (wf_levels n l Hwf).
  rewrite list_elem_of_fmap. split.
  - intros (k & -> & Hk). apply elem_of_seq in Hk. exists k. split; [lia | reflexivity].
  - intros (k & Hk & ->). exists k. split; [reflexivity|].
    apply elem_of_seq. lia.
Qed.

Lemma ancestor_cells_NoDup (n : nat) (l : GLLine) (index : Z) :
  wf_line n l -> 0 <= index < 2 ^ Z.of_nat n ->
  NoDup (ancestor_cells l index).
Proof.
  intros Hwf Hidx. unfold ancestor_cells. rewrite (wf_levels n l Hwf).
  apply NoDup_fmap_2_strong; [|apply NoDup_seq].
  intros k j Hk Hj Heq. apply elem_of_seq in Hk, Hj.
  apply (cell_inj n l k j) in Heq as [-> _];
    try assumption; try lia; apply ancestor_bounds; (lia || assumption).
Qed.

Lemma pad_cell_not_ancestor (n : nat) (l : GLLine) (index : Z) :
  wf_line n l -> 0 <= index < 2 ^ Z.of_nat n ->
  pad_cell l ∉ ancestor_cells l index.
Proof.
  intros Hwf Hidx Hin.
  apply (elem_of_ancestor_cells n) in Hin as (k & Hk & Heq); [|assumption].
  pose proof (cell_below_pad n l k (ancestor index k) Hwf Hk
                (ancestor_bounds n k index Hk Hidx)) as Hlt.
  unfold pad_cell in Heq. rewrite (wf_size n l Hwf) in Heq. lia.
Qed.

Lemma update_line (n : nat) (l : GLLine) (u : update) :
  wf_line n l -> in_line l u ->
  exists l',
    apply_update u l = Done l' /\
    wf_line n l' /\
    (forall c : nat,
       c ∉ ancestor_cells l (update_index u) -> data l' !! c = data l !! c).
Proof.
  intros Hwf Hu. unfold in_line in Hu. rewrite (wf_resolution n l Hwf) in Hu.
  destruct u as [index val | index val]; simpl in *.
  - destruct (setValueMax_line n l index val Hwf Hu)
      as (l' & Hrun & Hwf' & _ & Hframe).
    exists l'. split; [exact Hrun|]. split; [exact Hwf'|].
    intros c Hc. apply Hframe. intros k Hk ->. apply Hc.
    apply (elem_of_ancestor_cells n); eauto.
  - destruct (setValueMean_line n l index val Hwf Hu)
      as (l' & Hrun & Hwf' & _ & Hframe).
    exists l'. split; [exact Hrun|]. split; [exact Hwf'|].
    intros c Hc. apply Hframe. intros k Hk ->. apply Hc.
    apply (elem_of_ancestor_cells n); eauto.
Qed.

Lemma updates_keep_pad (n : nat) (us : list update) :
  forall l : GLLine,
    wf_line n l -> Forall (in_line l) us ->
    exists l',
      apply_updates us l = Done l' /\
      wf_line n l' /\
      data l' !! pad_cell l' = data l !! pad_cell l.
Proof.
  induction us as [|u us IH]; intros l Hwf Hus.
  - exists l. auto.
  - inversion Hus as [|? ? Hu Hrest]; subst.
    destruct (update_line n l u Hwf Hu) as (l1 & Hrun & Hwf1 & Hframe).
    assert (Hpad : pad_cell l1 = pad_cell l).
    { unfold pad_cell. rewrite (wf_size n l Hwf), (wf_size n l1 Hwf1).
      reflexivity. }
    destruct (IH l1 Hwf1) as (l' & Hrun' & Hwf' & Hpad').
    { eapply Forall_impl; [exact Hrest|]. unfold in_line. intros u' Hu'.
      rewrite (wf_resolution n l1 Hwf1), <- (wf_resolution n l Hwf). exact Hu'. }
    exists l'. simpl. rewrite Hrun. simpl. split; [exact Hrun'|].
    split; [exact Hwf'|].
    rewrite Hpad', Hpad. apply Hframe.
    unfold in_line in Hu. rewrite (wf_resolution n l Hwf) in Hu.
    apply (pad_cell_not_ancestor n); assumption.
Qed.

(** C9. On a line of power-of-two resolution [2^n] and for
    [0 <= index < 2^n], [setValueMax(index, val)] and
    [setValueMean(index, val)] change no cell but the ancestors of bin
    [index], which are [levels] distinct cells, one per level. The last
    cell of the buffer (offset [2 * 2^n - 1], the X of the layout) is
    none of them: no run of such updates writes it, and it is still the 0
    that [setResolution] put there. *)
Theorem single_bin_update_frame (n : nat) (l : GLLine) (u : update) :
  wf_line n l ->
  in_line l u ->
  NoDup (ancestor_cells l (update_index u)) /\
  Z.of_nat (length (ancestor_cells l (update_index u))) = levels l /\
  pad_cell l = Z.to_nat (2 * 2 ^ Z.of_nat n - 1) /\
  (pad_cell l ∉ ancestor_cells l (update_index u)) /\
  (exists l',
     apply_update u l = Done l' /\
     wf_line n l' /\
     (forall c : nat,
        c ∉ ancestor_cells l (update_index u) ->
        data l' !! c = data l !! c) /\
     data l' !! pad_cell l = data l !! pad_cell l) /\
  (forall us : list update,
     Forall (in_line l) us ->
     exists l',
       apply_updates us l = Done l' /\
       data l' !! pad_cell l' = data l !! pad_cell l) /\
  (forall l0 : GLLine,
     setResolution (2 ^ Z.of_nat n) l0 = Done l ->
     data l !! pad_cell l = Some F32.zero).
Proof.
  intros Hwf Hu. pose proof Hu as Hidx. unfold in_line in Hidx.
  rewrite (wf_resolution n l Hwf) in Hidx.
  pose proof (pad_cell_not_ancestor n l (update_index u) Hwf Hidx) as Hpad.
  split; [apply (ancestor_cells_NoDup n); assumption|].
  split.
  { unfold ancestor_cells. rewrite length_fmap, length_seq.
    rewrite (wf_levels n l Hwf). lia. }
  split; [unfold pad_cell; rewrite (wf_size n l Hwf); reflexivity|].
  split; [exact Hpad|].
  split.
  { destruct (update_line n l u Hwf Hu) as (l' & Hrun & Hwf' & Hframe).
    exists l'. repeat split; try assumption; try apply Hwf'.
    apply Hframe, Hpad. }
  split.
  { intros us Hus.
    destruct (updates_keep_pad n us l Hwf Hus) as (l' & Hrun & _ & Hkeep).
    eauto. }
  intros l0 Hset.
  pose proof (wf_line_bound n l Hwf) as Hn.
  rewrite setResolution_done in Hset by (apply pow2_lt_30, Hn).
  injection Hset as <-. unfold pad_cell, size. simpl.
  rewrite length_replicate. apply lookup_replicate_2.
  pose proof (pow2_pos n). lia.
Qed.

Lemma single_bin_update_frame_witness :
  NoDup (ancestor_cells zeroLine4 (update_index (UpdMean 1 (f32 6)))) /\
  Z.of_nat (length (ancestor_cells zeroLine4 (update_index (UpdMean 1 (f32 6)))))
  = levels zeroLine4 /\
  pad_cell zeroLine4 = Z.to_nat (2 * 2 ^ Z.of_nat 2 - 1) /\
  (pad_cell zeroLine4
   ∉ ancestor_cells zeroLine4 (update_index (UpdMean 1 (f32 6)))) /\
  (exists l',
     apply_update (UpdMean 1 (f32 6)) zeroLine4 = Done l' /\
     wf_line 2 l' /\
     (forall c : nat,
        c ∉ ancestor_cells zeroLine4 (update_index (UpdMean 1 (f32 6))) ->
        data l' !! c = data zeroLine4 !! c) /\
     data l' !! pad_cell zeroLine4 = data zeroLine4 !! pad_cell zeroLine4) /\
  (forall us : list update,
     Forall (in_line zeroLine4) us ->
     exists l',
       apply_updates us zeroLine4 = Done l' /\
       data l' !! pad_cell l' = data zeroLine4 !! pad_cell zeroLine4) /\
  (forall l0 : GLLine,
     setResolution (2 ^ Z.of_nat 2) l0 = Done zeroLine4 ->
     data zeroLine4 !! pad_cell zeroLine4 = Some F32.zero).
Proof.
  apply (single_bin_update_frame 2 zeroLine4 (UpdMean 1 (f32 6))).
  - split; reflexivity.
  - unfold in_line. vm_compute. split; congruence.
Defined.

(** ** Bin by bin against [assignMax] *)

Lemma bin_0 (l : GLLine) (i : Z) : bin l 0 i = data l !! Z.to_nat i.
Proof. reflexivity. Qed.

Lemma setValueMax_each_level0 (n : nat) (values : list float) :
  forall (first : Z) (l : GLLine),
    wf_line n l ->
    0 <= first ->
    first + Z.of_nat (length values) <= 2 ^ Z.of_nat n ->
    exists l',
      setValueMax_each first values l = Done l' /\
      wf_line n l' /\
      (forall (j : nat) (v : float),
         values !! j = Some v ->
         bin l' 0 (first + Z.of_nat j)
         = F32.fmaxf v <$> bin l 0 (first + Z.of_nat j)) /\
      (forall i : Z,
         0 <= i < first -> bin l' 0 i = bin l 0 i).
Proof.
  induction values as [|v vs IH]; intros first l Hwf Hfirst Hlen.
  - exists l. split; [reflexivity|]. split; [exact Hwf|].
    split; [intros j w H; discriminate | reflexivity].
  - simpl length in Hlen.
    assert (Hidx : 0 <= first < 2 ^ Z.of_nat n) by lia.
    destruct (setValueMax_line n l first v Hwf Hidx)
      as (l1 & Hrun & Hwf1 & _ & _).
    assert (Hbin : forall i, 0 <= i < 2 ^ Z.of_nat n ->
              bin l1 0 i
              = if decide (i = first) then F32.fmaxf v <$> bin l 0 i
                else bin l 0 i).
    { intros i Hi.
      rewrite (setValueMax_bin n l l1 first v 0 i Hwf Hidx Hrun)
        by (try lia; replace (n - 0)%nat with n by lia; exact Hi).
      rewrite ancestor_0. reflexivity. }
    destruct (IH (first + 1) l1 Hwf1 ltac:(lia) ltac:(lia))
      as (l' & Hrun' & Hwf' & Hset & Hkeep).
    exists l'. simpl. rewrite Hrun. simpl.
    split; [exact Hrun'|]. split; [exact Hwf'|]. split.
    + intros [|j] w Hj.
      * injection Hj as <-. rewrite Z.add_0_r, Hkeep by lia.
        rewrite Hbin by lia. destruct (decide (first = first)); [reflexivity | lia].
      * simpl in Hj.
        replace (first + Z.of_nat (S j)) with (first + 1 + Z.of_nat j) by lia.
        rewrite (Hset j w Hj).
        apply lookup_lt_Some in Hj.
        rewrite Hbin by lia.
        destruct (decide (first + 1 + Z.of_nat j = first)); [lia | reflexivity].
    + intros i Hi. rewrite Hkeep by lia. rewrite Hbin by lia.
      destruct (decide (i = first)); [lia | reflexivity].
Qed.

Lemma rescale_length (f : float -> float -> float) (l : GLLine) :
  length (data (rescale f l)) = length (data l).
Proof.
  unfold rescale. simpl. rewrite length_app, length_take, length_drop. lia.
Qed.

(** The rebuild keeps the finest level. *)
Lemma rescale_level0 (f : float -> float -> float) (l : GLLine) (i : nat) :
  (i < Z.to_nat (resolution l))%nat ->
  (i < length (data l))%nat ->
  data (rescale f l) !! i = data l !! i.
Proof.
  intros Hr Hlen. unfold rescale. simpl.
  set (level0 := take (Z.to_nat (resolution l)) (data l)).
  assert (Hl0 : (i < length level0)%nat).
  { unfold level0. rewrite length_take. lia. }
  rewrite lookup_app_l by (rewrite length_take, length_app; lia).
  rewrite lookup_take_lt by exact Hlen.
  rewrite lookup_app_l by exact Hl0.
  unfold level0. apply lookup_take_lt. exact Hr.
Qed.

Lemma assignMax_level0 (n : nat) (values : list float) (l : GLLine) :
  wf_line n l ->
  Z.of_nat (length values) = 2 ^ Z.of_nat n ->
  exists l',
    assignMax values l = Done l' /\
    forall i : nat,
      (Z.of_nat i < 2 ^ Z.of_nat n) ->
      bin l' 0 (Z.of_nat i) = values !! i.
Proof.
  intros Hwf Hlen. unfold assignMax.
  pose proof (wf_resolution n l Hwf) as Hres.
  pose proof (wf_line_length n l Hwf) as Hsize.
  pose proof (pow2_pos n) as Hpos.
  rewrite Hres.
  destruct (Nat.ltb_spec (length values) (Z.to_nat (2 ^ Z.of_nat n)))
    as [Hlt|_]; [lia|].
  eexists. split; [reflexivity|].
  intros i Hi. rewrite bin_0, Nat2Z.id.
  set (l1 := mkGLLine (levels l) _).
  assert (Hlen1 : length (data l1) = length (data l)).
  { unfold l1. simpl. rewrite length_app, length_take, length_drop. lia. }
  rewrite rescale_level0.
  - unfold l1. simpl. rewrite lookup_app_l by (rewrite length_take; lia).
    apply lookup_take_lt. lia.
  - rewrite (resolution_of_size l1 l Hlen1), Hres. lia.
  - rewrite Hlen1. lia.
Qed.

(** Against a zero that is already there, a sample that is not below
    zero comes out equal ([==]) to itself; the bits are its own too,
    unless it is the negative zero, for which the zero in place stays. *)
Lemma fmaxf_zero_r (v : float) :
  fle F32.zero v ->
  feq (F32.fmaxf v F32.zero) v /\
  (v <> S754_zero true -> F32.fmaxf v F32.zero = v).
Proof.
  intros H. destruct (fle_not_nan _ _ H) as [_ Hv].
  rewrite fmaxf_not_nan by (assumption || reflexivity).
  clear Hv. unfold F32.zero in *.
  destruct v as [[]|[]| |[] m e]; simpl; unfold fle, feq in *;
    try discriminate; split; try reflexivity; try congruence;
    unfold F32.eqb, SFeqb; simpl;
    change (Pos.compare_cont Eq m m) with (Pos.compare m m);
    rewrite Z.compare_refl, Pos.compare_refl; reflexivity.
Qed.

(** C2, as the code has it. On a line fresh from [setResolution(2^n)],
    [setValueMax(i, values[i])] for every bin [i] leaves
    [fmaxf(values[i], 0)] in bin [i] of the finest level, where
    [assignMax(values)] leaves [values[i]]: when no sample is negative or
    a NaN the two finest levels compare equal ([==]) bin by bin, and they
    are the same floats wherever the sample is not the negative zero
    (for which the bin keeps its [+0.0]). *)
Theorem setValueMax_each_vs_assignMax (n : nat) (values : list float)
    (l0 l : GLLine) :
  Int.in_range (2 ^ Z.of_nat n) ->
  setResolution (2 ^ Z.of_nat n) l0 = Done l ->
  Z.of_nat (length values) = 2 ^ Z.of_nat n ->
  exists la lb,
    setValueMax_each 0 values l = Done la /\
    assignMax values l = Done lb /\
    (forall (i : nat) (v : float),
       values !! i = Some v ->
       bin la 0 (Z.of_nat i) = Some (F32.fmaxf v F32.zero) /\
       bin lb 0 (Z.of_nat i) = Some v) /\
    (Forall (fle F32.zero) values ->
     forall i : nat,
       Z.of_nat i < 2 ^ Z.of_nat n ->
       exists x v,
         bin la 0 (Z.of_nat i) = Some x /\
         bin lb 0 (Z.of_nat i) = Some v /\
         feq x v /\
         (v <> S754_zero true -> x = v)).
Proof.
  intros Hint Hset Hlen.
  destruct (setResolution_wf n l0 l Hint Hset) as (Hn & Hwf & Hdata).
  destruct (setValueMax_each_level0 n values 0 l Hwf ltac:(lia) ltac:(lia))
    as (la & Hla & _ & Hbins & _).
  destruct (assignMax_level0 n values l Hwf Hlen) as (lb & Hlb & Hvals).
  assert (Hboth : forall (i : nat) (v : float),
            values !! i = Some v ->
            bin la 0 (Z.of_nat i) = Some (F32.fmaxf v F32.zero) /\
            bin lb 0 (Z.of_nat i) = Some v).
  { intros i v Hv. pose proof (lookup_lt_Some _ _ _ Hv) as Hi. split.
    - specialize (Hbins i v Hv). rewrite Z.add_0_l in Hbins. rewrite Hbins.
      rewrite bin_0, Hdata, Nat2Z.id.
      rewrite lookup_replicate_2 by lia. reflexivity.
    - rewrite Hvals by lia. exact Hv. }
  exists la, lb. split; [exact Hla|]. split; [exact Hlb|].
  split; [exact Hboth|].
  intros Hpos i Hi.
  destruct (lookup_lt_is_Some_2 values i ltac:(lia)) as [v Hv].
  destruct (Hboth i v Hv) as [Ha Hb].
  rewrite Forall_forall in Hpos.
  destruct (fmaxf_zero_r v) as [Heq Hbits].
  { apply Hpos. apply list_elem_of_lookup. eauto. }
  exists (F32.fmaxf v F32.zero), v. auto.
Qed.

Lemma setValueMax_each_vs_assignMax_witness :
  exists la lb,
    setValueMax_each 0 [f32 4; S754_zero true] zeroLine2 = Done la /\
    assignMax [f32 4; S754_zero true] zeroLine2 = Done lb /\
    (forall (i : nat) (v : float),
       [f32 4; S754_zero true] !! i = Some v ->
       bin la 0 (Z.of_nat i) = Some (F32.fmaxf v F32.zero) /\
       bin lb 0 (Z.of_nat i) = Some v) /\
    (Forall (fle F32.zero) [f32 4; S754_zero true] ->
     forall i : nat,
       Z.of_nat i < 2 ^ Z.of_nat 1 ->
       exists x v,
         bin la 0 (Z.of_nat i) = Some x /\
         bin lb 0 (Z.of_nat i) = Some v /\
         feq x v /\
         (v <> S754_zero true -> x = v)).
Proof.
  apply (setValueMax_each_vs_assignMax 1 [f32 4; S754_zero true] emptyLine
           zeroLine2).
  - vm_compute. split; congruence.
  - reflexivity.
  - reflexivity.
Defined.

(** On a tie of zeros the zero in place stays: pushing [-0.0] into a
    fresh bin leaves [+0.0] there, where [assignMax] stores [-0.0]. *)
Example setValueMax_negative_zero :
  (do la <- setValueMax_each 0 [f32 4; S754_zero true] zeroLine2;
   Done (take 2 (data la)))
  = Done [f32 4; S754_zero false] /\
  (do lb <- assignMax [f32 4; S754_zero true] zeroLine2;
   Done (take 2 (data lb)))
  = Done [f32 4; S754_zero true].
Proof. split; vm_compute; reflexivity. Qed.

(** C2 fails on a negative sample: with [values = {-1, 3}] on a fresh
    line of 2 bins, bin 0 holds [fmaxf(-1, 0) = 0] after the bin-by-bin
    updates and [-1] after [assignMax]. *)
Lemma setValueMax_each_differs_from_assignMax :
  exists l la lb,
    setResolution 2 emptyLine = Done l /\
    setValueMax_each 0 [f32 (-1); f32 3] l = Done la /\
    assignMax [f32 (-1); f32 3] l = Done lb /\
    bin la 0 0 = Some (f32 0) /\
    bin lb 0 0 = Some (f32 (-1)) /\
    F32.eqb (f32 0) (f32 (-1)) = false /\
    bin la 0 0 <> bin lb 0 0.
Proof.
  eexists _, _, _. split; [reflexivity|].
  split; [vm_compute; reflexivity|]. split; [vm_compute; reflexivity|].
  split; [reflexivity|]. split; [reflexivity|]. split; [reflexivity|].
  vm_compute. discriminate.
Qed.

(** ** Down-sampling with [reduceMean] *)

Lemma chunk_length (values : list float) (ratio i : nat) :
  (i * ratio + ratio <= length values)%nat ->
  length (chunk values ratio i) = ratio.
Proof.
  intros H. unfold chunk. rewrite length_take, length_drop. lia.
Qed.

Lemma chunk_lookup (values : list float) (ratio i j : nat) :
  (j < ratio)%nat ->
  chunk values ratio i !! j = values !! (i * ratio + j)%nat.
Proof.
  intros H. unfold chunk. rewrite lookup_take_lt by exact H.
  apply lookup_drop.
Qed.

Example reduceMean_5_into_2 :
  reduceMean samples5 5 zeroLine2
  = Done (mkGLLine 2 [f32 2; f32 6; f32 4; f32 0]).
Proof. vm_compute. reflexivity. Qed.

(** C5. On a line of power-of-two resolution [2^n] and for an input
    array of [length >= 2^n] samples, [reduceMean(values, length)]
    returns and leaves in bin [i] of level 0 the arithmetic mean of the
    [ratio] samples [values[i*ratio .. i*ratio + ratio - 1]], where
    [ratio = length / 2^n] (the mean is taken in float arithmetic: the
    samples are added in order and the sum is divided by [ratio]). *)
Theorem reduceMean_level0 (n : nat) (values : list float) (len : Z)
    (l : GLLine) :
  wf_line n l ->
  Z.of_nat (length values) = len ->
  2 ^ Z.of_nat n <= len ->
  exists l',
    reduceMean values len l = Done l' /\
    forall i : nat,
      Z.of_nat i < 2 ^ Z.of_nat n ->
      let ratio := Z.to_nat (len / 2 ^ Z.of_nat n) in
      bin l' 0 (Z.of_nat i) = Some (mean (chunk values ratio i)) /\
      length (chunk values ratio i) = ratio /\
      (forall j : nat,
         (j < ratio)%nat ->
         chunk values ratio i !! j = values !! (i * ratio + j)%nat).
Proof.
  intros Hwf Hvalues Hlen.
  pose proof (wf_resolution n l Hwf) as Hres.
  pose proof (wf_line_length n l Hwf) as Hsize.
  pose proof (pow2_pos n) as Hpos.
  unfold reduceMean. rewrite Hres.
  destruct (Z.ltb_spec (Z.of_nat (length values)) len) as [|_]; [lia|].
  destruct (Z.eqb_spec (2 ^ Z.of_nat n) 0) as [|_]; [lia|].
  simpl orb. cbv iota.
  rewrite Z.quot_div_nonneg by lia.
  eexists. split; [reflexivity|].
  intros i Hi. set (ratio := Z.to_nat (len / 2 ^ Z.of_nat n)).
  assert (Hratio : Z.of_nat ratio * 2 ^ Z.of_nat n <= len).
  { unfold ratio. rewrite Z2Nat.id by (apply Z.div_pos; lia).
    rewrite Z.mul_comm. apply Z.mul_div_le. lia. }
  assert (Hfit : (i * ratio + ratio <= length values)%nat) by nia.
  split; [|split; [apply chunk_length, Hfit | intros j Hj; apply chunk_lookup, Hj]].
  rewrite bin_0, Nat2Z.id.
  set (l1 := mkGLLine (levels l) _).
  assert (Hlen1 : length (data l1) = length (data l)).
  { unfold l1. simpl.
    rewrite length_app, length_fmap, length_seq, length_drop. lia. }
  rewrite rescale_level0.
  - unfold l1. simpl.
    rewrite lookup_app_l by (rewrite length_fmap, length_seq; lia).
    rewrite list_lookup_fmap, lookup_seq_lt by lia. reflexivity.
  - rewrite (resolution_of_size l1 l Hlen1), Hres. lia.
  - rewrite Hlen1. lia.
Qed.

Lemma reduceMean_level0_witness :
  exists l',
    reduceMean samples5 5 zeroLine2 = Done l' /\
    forall i : nat,
      Z.of_nat i < 2 ^ Z.of_nat 1 ->
      let ratio := Z.to_nat (5 / 2 ^ Z.of_nat 1) in
      bin l' 0 (Z.of_nat i) = Some (mean (chunk samples5 ratio i)) /\
      length (chunk samples5 ratio i) = ratio /\
      (forall j : nat,
         (j < ratio)%nat ->
         chunk samples5 ratio i !! j = samples5 !! (i * ratio + j)%nat).
Proof.
  apply (reduceMean_level0 1 samples5 5 zeroLine2).
  - split; reflexivity.
  - reflexivity.
  - simpl. lia.
Defined.

(** ** The texture ring *)

Lemma flushOneLine_step (line : list float) (t : TextureRing) :
  0 <= row t < rowCount t ->
  flushOneLine line t
  = Done (mkRing (<[Z.to_nat (row t) := line]> (rows t))
            ((row t + 1) mod rowCount t) (rowCount t)).
Proof.
  intros H. unfold flushOneLine.
  destruct (Z.eqb_spec (rowCount t) 0) as [|_]; [lia|].
  rewrite Z.rem_mod_nonneg by lia. reflexivity.
Qed.

Lemma flushEach_cursor (lines : list (list float)) :
  forall t : TextureRing,
    0 <= row t < rowCount t ->
    exists t',
      flushEach lines t = Done t' /\
      rowCount t' = rowCount t /\
      length (rows t') = length (rows t) /\
      row t' = (row t + Z.of_nat (length lines)) mod rowCount t.
Proof.
  induction lines as [|line lines IH]; intros t Ht.
  - exists t. simpl. rewrite Z.add_0_r, Z.mod_small by lia. auto.
  - simpl flushEach. rewrite flushOneLine_step by exact Ht. simpl obind.
    set (t1 := mkRing _ _ _).
    destruct (IH t1) as (t' & Hrun & Hcount & Hlen & Hrow).
    { simpl. apply Z.mod_pos_bound. lia. }
    exists t'. split; [exact Hrun|]. split; [exact Hcount|].
    split; [rewrite Hlen; apply length_insert|].
    rewrite Hrow. simpl. rewrite Zplus_mod_idemp_l. f_equal. lia.
Qed.

(** C6. Every commit writes one row at the write cursor [row], leaves
    the other rows as they are, and sets [row = (row + 1) mod rowCount];
    after [n] commits from cursor 0 the cursor is [n mod rowCount], and it
    stays in [0, rowCount). With [rowCount = 3], five commits leave the
    cursor at 2 and the rows of the first two commits are overwritten by
    those of the fourth and the fifth. *)
Theorem flushOneLine_ring (t : TextureRing) (lines : list (list float)) :
  0 <= row t < rowCount t ->
  (forall line : list float,
     exists t1,
       flushOneLine line t = Done t1 /\
       rows t1 = <[Z.to_nat (row t) := line]> (rows t) /\
       (forall j : nat, j <> Z.to_nat (row t) -> rows t1 !! j = rows t !! j) /\
       row t1 = (row t + 1) mod rowCount t /\
       rowCount t1 = rowCount t) /\
  (exists t',
     flushEach lines t = Done t' /\
     rowCount t' = rowCount t /\
     row t' = (row t + Z.of_nat (length lines)) mod rowCount t /\
     (row t = 0 -> row t' = Z.of_nat (length lines) mod rowCount t) /\
     0 <= row t' < rowCount t') /\
  (forall a b c d e : list float,
     flushEach [a; b; c; d; e] (emptyRing 3) = Done (mkRing [d; e; c] 2 3)).
Proof.
  intros Ht. split; [|split].
  - intros line. eexists. split; [apply flushOneLine_step, Ht|].
    simpl. split; [reflexivity|]. split; [|split; reflexivity].
    intros j Hj. apply list_lookup_insert_ne. congruence.
  - destruct (flushEach_cursor lines t Ht) as (t' & Hrun & Hcount & _ & Hrow).
    exists t'. split; [exact Hrun|]. split; [exact Hcount|].
    split; [exact Hrow|]. split.
    + intros H0. rewrite Hrow, H0. reflexivity.
    + rewrite Hrow, Hcount. apply Z.mod_pos_bound. lia.
  - intros a b c d e. reflexivity.
Qed.

Lemma flushOneLine_ring_witness :
  (forall line : list float,
     exists t1,
       flushOneLine line (emptyRing 3) = Done t1 /\
       rows t1 = <[Z.to_nat (row (emptyRing 3)) := line]> (rows (emptyRing 3)) /\
       (forall j : nat,
          j <> Z.to_nat (row (emptyRing 3)) ->
          rows t1 !! j = rows (emptyRing 3) !! j) /\
       row t1 = (row (emptyRing 3) + 1) mod rowCount (emptyRing 3) /\
       rowCount t1 = rowCount (emptyRing 3)) /\
  (exists t',
     flushEach rows5 (emptyRing 3) = Done t' /\
     rowCount t' = rowCount (emptyRing 3) /\
     row t'
     = (row (emptyRing 3) + Z.of_nat (length rows5)) mod rowCount (emptyRing 3) /\
     (row (emptyRing 3) = 0 ->
      row t' = Z.of_nat (length rows5) mod rowCount (emptyRing 3)) /\
     0 <= row t' < rowCount t') /\
  (forall a b c d e : list float,
     flushEach [a; b; c; d; e] (emptyRing 3) = Done (mkRing [d; e; c] 2 3)).
Proof.
  apply (flushOneLine_ring (emptyRing 3) rows5).
  simpl. lia.
Defined.

(** ** The blending switch *)

(** C10. [setMaxBlending(b)] sets [m_useMaxBlending] to [b] and changes
    nothing else: the history, the pool, the write cursor, the geometry,
    the palette, every other field of the context and the state of the
    base class are as before. *)
Theorem setMaxBlending_frame {Base : Type} (b : bool) (w : GLWaterfall Base) :
  let c := glCtx w in
  let c' := glCtx (setMaxBlending b w) in
  m_useMaxBlending c' = b /\
  base (setMaxBlending b w) = base w /\
  m_history c' = m_history c /\
  m_pool c' = m_pool c /\
  m_row c' = m_row c /\
  m_rowSize c' = m_rowSize c /\
  m_rowCount c' = m_rowCount c /\
  m_maxRowSize c' = m_maxRowSize c /\
  m_firstAccum c' = m_firstAccum c /\
  m_waterfall c' = m_waterfall c /\
  m_palette c' = m_palette c /\
  m_paletBuf c' = m_paletBuf c /\
  m_updatePalette c' = m_updatePalette c /\
  m c' = m c /\
  x0 c' = x0 c /\
  c_x0 c' = c_x0 c /\
  c_x1 c' = c_x1 c /\
  m_zoom c' = m_zoom c /\
  m_width c' = m_width c /\
  m_height c' = m_height c /\
  m_vao c' = m_vao c /\
  m_vbo c' = m_vbo c /\
  m_ibo c' = m_ibo c /\
  m_program c' = m_program c /\
  m_vertexShader c' = m_vertexShader c /\
  m_fragmentShader c' = m_fragmentShader c.
Proof.
  intros c c'. subst c c'. destruct w as [bs []]. simpl.
  repeat split.
Qed.

(** * Further properties of [GLLine] *)

(** ** Allocation and resolution *)

(** X1. [resolutionFor] undoes [allocationFor] exactly on the resolutions
    whose double fits in an [int]; [allocationFor] undoes [resolutionFor]
    up to the parity of the allocation. *)
Theorem resolutionFor_allocationFor (res alloc : Z) :
  Int.in_range res ->
  Int.in_range alloc ->
  (resolutionFor (allocationFor res) = res <-> - 2 ^ 30 <= res < 2 ^ 30) /\
  allocationFor (resolutionFor alloc) = alloc - alloc mod 2.
Proof.
  unfold Int.in_range, Int.min_int, Int.max_int.
  unfold resolutionFor, allocationFor, Int.shr, Int.shl, Int.wrap.
  intros Hres Halloc.
  rewrite !Z.shiftl_mul_pow2, !shiftr1_div by lia.
  change (2 ^ 1) with 2. change (2 ^ 30) with 1073741824.
  change (2 ^ 31) with 2147483648 in *. change (2 ^ 32) with 4294967296.
  split.
  - split; intros H; Z.div_mod_to_equations; lia.
  - Z.div_mod_to_equations. lia.
Qed.

Lemma resolutionFor_allocationFor_witness :
  (resolutionFor (allocationFor 8192) = 8192 <-> - 2 ^ 30 <= 8192 < 2 ^ 30) /\
  allocationFor (resolutionFor 16385) = 16385 - 16385 mod 2.
Proof.
  apply (resolutionFor_allocationFor 8192 16385); vm_compute; split; congruence.
Defined.

(** ** [setResolution] beyond what an [int] can double *)

(** X2. For every [int res] from [2^30] up, [res << 1] wraps to a negative
    [int], the size handed to [resize] is out of reach and the call ends
    in [std::length_error], whatever the line held. *)
Theorem setResolution_overflow (res : Z) (l : GLLine) :
  Int.in_range res ->
  2 ^ 30 <= res ->
  allocationFor res < 0 /\ setResolution res l = LengthError.
Proof.
  unfold Int.in_range, Int.min_int, Int.max_int. intros Hint Hres.
  assert (Halloc : allocationFor res = 2 * res - 2 ^ 32).
  { unfold allocationFor, Int.shl, Int.wrap.
    rewrite Z.shiftl_mul_pow2 by lia. change (2 ^ 1) with 2.
    change (2 ^ 30) with 1073741824 in *.
    change (2 ^ 31) with 2147483648 in *. change (2 ^ 32) with 4294967296.
    Z.div_mod_to_equations. lia. }
  split; [change (2 ^ 30) with 1073741824 in *;
          change (2 ^ 31) with 2147483648 in *;
          change (2 ^ 32) with 4294967296 in *; lia|].
  unfold setResolution, ceil_log2.
  destruct (Z.ltb_spec 0 res) as [_|]; [|lia]. simpl obind.
  unfold resize.
  destruct (Z.ltb_spec max_size (Int.to_size_t (allocationFor res)))
    as [_|Hsmall]; [reflexivity|].
  exfalso. rewrite Halloc in Hsmall.
  unfold Int.to_size_t, max_size in Hsmall.
  change (2 ^ 30) with 1073741824 in *.
  change (2 ^ 31) with 2147483648 in *.
  change (2 ^ 32) with 4294967296 in *.
  change (2 ^ 61) with 2305843009213693952 in *.
  change (2 ^ 64) with 18446744073709551616 in *.
  Z.div_mod_to_equations. lia.
Qed.

Lemma setResolution_overflow_witness :
  allocationFor 1500000000 < 0 /\
  setResolution 1500000000 zeroLine4 = LengthError.
Proof.
  apply (setResolution_overflow 1500000000 zeroLine4).
  - vm_compute. split; congruence.
  - vm_compute. congruence.
Defined.

(** ** [initialize] *)

Lemma zero_line_max_pyramid (n : nat) (l : GLLine) :
  wf_line n l ->
  data l = replicate (length (data l)) F32.zero ->
  max_pyramid l.
Proof.
  intros Hwf Hzero k i Hk Hi.
  rewrite (wf_levels n l Hwf) in Hk.
  rewrite (wf_resolution n l Hwf), level_width_pow2 in Hi by lia.
  assert (Hw : 2 ^ Z.of_nat (n - k) = 2 * 2 ^ Z.of_nat (n - S k)).
  { replace (n - k)%nat with (S (n - S k)) by lia. apply pow2_succ. }
  assert (Hbin : forall j c, (j <= n)%nat -> 0 <= c < 2 ^ Z.of_nat (n - j) ->
            bin l j c = Some F32.zero).
  { intros j c Hj Hc.
    destruct (bin_is_Some n l j c Hwf Hj Hc) as [x Hx].
    rewrite Hx. unfold bin in Hx. rewrite Hzero in Hx.
    apply lookup_replicate in Hx as [-> _]. reflexivity. }
  exists F32.zero, F32.zero, F32.zero.
  split; [apply Hbin; lia|]. split; [apply Hbin; lia|].
  split; [apply Hbin; lia|]. reflexivity.
Qed.

(** X3. On a line of [2^n] bins, [initialize()] is [setResolution] with the
    resolution the line already has: the shape is kept, every float is 0,
    the max-pyramid invariant holds, and a second [initialize()] changes
    nothing. *)
Theorem initialize_resets (n : nat) (l : GLLine) :
  wf_line n l ->
  setResolution (resolution l) l = Done (initialize l) /\
  wf_line n (initialize l) /\
  (forall c : nat,
     (c < length (data l))%nat -> data (initialize l) !! c = Some F32.zero) /\
  max_pyramid (initialize l) /\
  initialize (initialize l) = initialize l.
Proof.
  intros Hwf.
  pose proof (wf_line_bound n l Hwf) as Hn.
  pose proof (pow2_lt_30 n Hn) as Hr.
  pose proof (wf_line_length n l Hwf) as Hlen.
  assert (Hwf' : wf_line n (initialize l)).
  { apply (wf_line_same_shape n l); [exact Hwf | reflexivity|].
    unfold initialize. simpl. apply length_replicate. }
  split.
  { rewrite (wf_resolution n l Hwf), setResolution_done by exact Hr.
    unfold initialize. rewrite log2_up_pow2, (wf_levels n l Hwf).
    do 3 f_equal. lia. }
  split; [exact Hwf'|]. split.
  { intros c Hc. unfold initialize. simpl. apply lookup_replicate_2, Hc. }
  split.
  { apply (zero_line_max_pyramid n); [exact Hwf'|].
    unfold initialize. simpl. rewrite length_replicate. reflexivity. }
  unfold initialize. simpl. rewrite length_replicate. reflexivity.
Qed.

Lemma initialize_resets_witness :
  setResolution (resolution someLine4) someLine4 = Done (initialize someLine4) /\
  wf_line 2 (initialize someLine4) /\
  (forall c : nat,
     (c < length (data someLine4))%nat ->
     data (initialize someLine4) !! c = Some F32.zero) /\
  max_pyramid (initialize someLine4) /\
  initialize (initialize someLine4) = initialize someLine4.
Proof. apply (initialize_resets 2 someLine4). split; reflexivity. Defined.

(** ** Max-hold *)

Lemma ancestor_cells_same (n : nat) (l l' : GLLine) (index : Z) :
  wf_line n l -> wf_line n l' ->
  ancestor_cells l' index = ancestor_cells l index.
Proof.
  intros Hwf Hwf'. unfold ancestor_cells, cell.
  rewrite (wf_levels n l Hwf), (wf_levels n l' Hwf').
  rewrite (wf_resolution n l Hwf), (wf_resolution n l' Hwf'). reflexivity.
Qed.

(** Every cell after [setValueMax]. *)
Lemma setValueMax_data (n : nat) (l : GLLine) (index : Z) (val : float) :
  wf_line n l -> 0 <= index < 2 ^ Z.of_nat n ->
  exists l',
    setValueMax index val l = Done l' /\
    wf_line n l' /\
    levels l' = levels l /\
    forall c : nat,
      data l' !! c
      = if decide (c ∈ ancestor_cells l index)
        then F32.fmaxf val <$> data l !! c
        else data l !! c.
Proof.
  intros Hwf Hidx.
  destruct (setValueMax_line n l index val Hwf Hidx)
    as (l' & Hrun & Hwf' & Hpath & Hframe).
  exists l'. split; [exact Hrun|]. split; [exact Hwf'|].
  split; [rewrite (wf_levels n l Hwf), (wf_levels n l' Hwf'); reflexivity|].
  intros c. destruct (decide (c ∈ ancestor_cells l index)) as [Hin | Hout].
  - apply (elem_of_ancestor_cells n) in Hin as (k & Hk & ->); [|exact Hwf].
    specialize (Hpath k Hk). unfold bin in Hpath.
    replace (cell l' k (ancestor index k)) with (cell l k (ancestor index k))
      in Hpath; [exact Hpath|].
    unfold cell. rewrite (wf_resolution n l Hwf), (wf_resolution n l' Hwf').
    reflexivity.
  - apply Hframe. intros k Hk ->. apply Hout.
    apply (elem_of_ancestor_cells n); eauto.
Qed.

Lemma GLLine_eq (l l' : GLLine) :
  levels l' = levels l -> data l' = data l -> l' = l.
Proof. destruct l, l'. simpl. intros -> ->. reflexivity. Qed.

Lemma fmaxf_idem (v x : float) :
  F32.fmaxf v (F32.fmaxf v x) = F32.fmaxf v x.
Proof.
  destruct (F32.is_nan v) eqn:Hv.
  { destruct v; try discriminate. reflexivity. }
  destruct (F32.is_nan x) eqn:Hx.
  { destruct x; try discriminate. rewrite fmaxf_nan_r.
    rewrite fmaxf_not_nan by assumption.
    destruct (F32.ltb v v); reflexivity. }
  rewrite (fmaxf_not_nan v x) by assumption.
  destruct (F32.ltb x v) eqn:Hlt.
  - rewrite fmaxf_not_nan by assumption.
    destruct (F32.ltb v v); reflexivity.
  - rewrite fmaxf_not_nan, Hlt by assumption. reflexivity.
Qed.

(** X4. A NaN sample is missing data: [setValueMax(index, NaN)] returns the
    line as it was. Pushing the same sample a second time changes nothing
    either. *)
Theorem setValueMax_nan_and_repeat (n : nat) (l : GLLine) (index : Z)
    (val : float) :
  wf_line n l ->
  0 <= index < 2 ^ Z.of_nat n ->
  setValueMax index S754_nan l = Done l /\
  exists l',
    setValueMax index val l = Done l' /\
    setValueMax index val l' = Done l'.
Proof.
  intros Hwf Hidx. split.
  - destruct (setValueMax_data n l index S754_nan Hwf Hidx)
      as (l' & Hrun & _ & Hlev & Hdata).
    rewrite Hrun. f_equal. apply GLLine_eq; [exact Hlev|].
    apply list_eq. intros c. rewrite Hdata.
    destruct (decide (c ∈ ancestor_cells l index)); [|reflexivity].
    destruct (data l !! c); reflexivity.
  - destruct (setValueMax_data n l index val Hwf Hidx)
      as (l1 & Hrun1 & Hwf1 & Hlev1 & Hdata1).
    destruct (setValueMax_data n l1 index val Hwf1 Hidx)
      as (l2 & Hrun2 & _ & Hlev2 & Hdata2).
    exists l1. split; [exact Hrun1|]. rewrite Hrun2. f_equal.
    apply GLLine_eq; [exact Hlev2|].
    apply list_eq. intros c.
    rewrite Hdata2, (ancestor_cells_same n l l1 index Hwf Hwf1).
    destruct (decide (c ∈ ancestor_cells l index)) as [Hin|]; [|reflexivity].
    rewrite !Hdata1.
    destruct (decide (c ∈ ancestor_cells l index)); [|contradiction].
    destruct (data l !! c); simpl; [|reflexivity].
    rewrite fmaxf_idem. reflexivity.
Qed.

Lemma setValueMax_nan_and_repeat_witness :
  setValueMax 1 S754_nan maxLine4 = Done maxLine4 /\
  exists l',
    setValueMax 1 (f32 9) maxLine4 = Done l' /\
    setValueMax 1 (f32 9) l' = Done l'.
Proof.
  apply (setValueMax_nan_and_repeat 2 maxLine4 1 (f32 9)).
  - split; reflexivity.
  - simpl. lia.
Defined.

(** X5. [setValueMax] never lowers a bin: every cell that held a number
    holds a number at least as large afterwards, and when [val] is a
    number every ancestor of bin [index] ends at least as large as
    [val]. *)
Theorem setValueMax_never_lowers (n : nat) (l : GLLine) (index : Z)
    (val : float) :
  wf_line n l ->
  0 <= index < 2 ^ Z.of_nat n ->
  exists l',
    setValueMax index val l = Done l' /\
    (forall (c : nat) (x : float),
       data l !! c = Some x -> not_nan x ->
       exists x', data l' !! c = Some x' /\ fle x x') /\
    (not_nan val ->
     forall k : nat,
       Z.of_nat k < levels l ->
       exists x', bin l' k (ancestor index k) = Some x' /\ fle val x').
Proof.
  intros Hwf Hidx.
  destruct (setValueMax_data n l index val Hwf Hidx)
    as (l' & Hrun & Hwf' & _ & Hdata).
  exists l'. split; [exact Hrun|]. split.
  - intros c x Hx Hnum. specialize (Hdata c).
    unfold float, F32.float in *. rewrite Hdata, Hx.
    destruct (decide (c ∈ ancestor_cells l index)); simpl.
    + eexists. split; [reflexivity|]. apply fle_fmaxf_r, Hnum.
    + eexists. split; [reflexivity|]. apply fle_refl, Hnum.
  - intros Hval k Hk. rewrite (wf_levels n l Hwf) in Hk.
    destruct (setValueMax_line n l index val Hwf Hidx)
      as (l1 & Hrun1 & _ & Hpath & _).
    rewrite Hrun in Hrun1. injection Hrun1 as <-.
    destruct (bin_is_Some n l k (ancestor index k) Hwf ltac:(lia)) as [x Hx].
    { apply ancestor_bounds; [lia | exact Hidx]. }
    rewrite Hpath, Hx by lia. simpl.
    eexists. split; [reflexivity|]. apply fle_fmaxf_l, Hval.
Qed.

Lemma setValueMax_never_lowers_witness :
  exists l',
    setValueMax 3 (f32 4) maxLine4 = Done l' /\
    (forall (c : nat) (x : float),
       data maxLine4 !! c = Some x -> not_nan x ->
       exists x', data l' !! c = Some x' /\ fle x x') /\
    (not_nan (f32 4) ->
     forall k : nat,
       Z.of_nat k < levels maxLine4 ->
       exists x', bin l' k (ancestor 3 k) = Some x' /\ fle (f32 4) x').
Proof.
  apply (setValueMax_never_lowers 2 maxLine4 3 (f32 4)).
  - split; reflexivity.
  - simpl. lia.
Defined.

(** ** Runs of [setValueMax] *)

Lemma held_cons (k : nat) (i : Z) (index : Z) (v : float)
    (us : list (Z * float)) (x : float) :
  held k i ((index, v) :: us) x
  = held k i us (if decide (ancestor index k = i) then F32.fmaxf v x else x).
Proof. reflexivity. Qed.

(** X6. After any run of in-range [setValueMax] calls, bin [i] of level [k]
    holds the running [fmaxf] of what it held before with the samples
    pushed into the finest bins below it, in the order they came, and
    with no other sample. *)
Theorem setValueMax_all_holds_max (n : nat) (us : list (Z * float)) :
  forall (l : GLLine) (k : nat) (i : Z) (x : float),
    wf_line n l ->
    Forall (fun u => 0 <= fst u < 2 ^ Z.of_nat n) us ->
    (k <= n)%nat ->
    0 <= i < 2 ^ Z.of_nat (n - k) ->
    bin l k i = Some x ->
    exists l',
      setValueMax_all us l = Done l' /\
      wf_line n l' /\
      bin l' k i = Some (held k i us x).
Proof.
  induction us as [|[index v] us IH]; intros l k i x Hwf Hus Hk Hi Hx.
  - exists l. auto.
  - inversion Hus as [|? ? Hu Hrest]; subst. simpl in Hu.
    destruct (setValueMax_line n l index v Hwf Hu)
      as (l1 & Hrun & Hwf1 & _ & _).
    pose proof (setValueMax_bin n l l1 index v k i Hwf Hu Hrun Hk Hi) as Hbin.
    rewrite Hx in Hbin.
    destruct (IH l1 k i
                (if decide (ancestor index k = i) then F32.fmaxf v x else x)
                Hwf1 Hrest Hk Hi) as (l' & Hrun' & Hwf' & Hbin').
    { rewrite Hbin.
      destruct (decide (i = ancestor index k)), (decide (ancestor index k = i));
        (reflexivity || congruence). }
    exists l'. rewrite held_cons. cbn [setValueMax_all]. rewrite Hrun.
    split; [exact Hrun'|]. split; [exact Hwf'|]. exact Hbin'.
Qed.

Lemma setValueMax_all_holds_max_witness :
  exists l',
    setValueMax_all [(0, f32 3); (1, f32 7); (2, f32 9)] zeroLine4 = Done l' /\
    wf_line 2 l' /\
    bin l' 1 0
    = Some (held 1 0 [(0, f32 3); (1, f32 7); (2, f32 9)] F32.zero).
Proof.
  apply (setValueMax_all_holds_max 2 [(0, f32 3); (1, f32 7); (2, f32 9)]
           zeroLine4 1 0 F32.zero).
  - split; reflexivity.
  - repeat constructor; simpl; lia.
  - lia.
  - simpl. lia.
  - reflexivity.
Defined.

Example held_sample :
  held 1 0 [(0, f32 3); (1, f32 7); (2, f32 9)] F32.zero = f32 7.
Proof. vm_compute. reflexivity. Qed.

Lemma max_pyramid_step (n : nat) (l l' : GLLine) (index : Z) (val : float) :
  wf_line n l -> wf_line n l' ->
  0 <= index < 2 ^ Z.of_nat n ->
  setValueMax index val l = Done l' ->
  max_pyramid l -> max_pyramid l'.
Proof.
  intros Hwf Hwf' Hidx Hrun Hinv k i Hk Hi.
  rewrite (wf_levels n l' Hwf') in Hk.
  rewrite (wf_resolution n l' Hwf'), level_width_pow2 in Hi by lia.
  destruct (Hinv k i) as (x & a & b & Hx & Ha & Hb & Hmax).
  { rewrite (wf_levels n l Hwf). lia. }
  { rewrite (wf_resolution n l Hwf), level_width_pow2 by lia. exact Hi. }
  assert (Hw : 2 ^ Z.of_nat (n - k) = 2 * 2 ^ Z.of_nat (n - S k)).
  { replace (n - k)%nat with (S (n - S k)) by lia. apply pow2_succ. }
  unfold max_node.
  rewrite (setValueMax_bin n l l' index val (S k) i Hwf Hidx Hrun)
    by (lia || assumption).
  rewrite (setValueMax_bin n l l' index val k (2 * i) Hwf Hidx Hrun) by lia.
  rewrite (setValueMax_bin n l l' index val k (2 * i + 1) Hwf Hidx Hrun)
    by lia.
  rewrite Hx, Ha, Hb, ancestor_half.
  generalize (ancestor index k). intros A.
  destruct (decide (i = A / 2)) as [Hi2 | Hi2];
    destruct (decide (2 * i = A)) as [Hl | Hl];
    destruct (decide (2 * i + 1 = A)) as [Hr | Hr];
    try (exfalso; Z.div_mod_to_equations; lia); simpl;
    eexists _, _, _; repeat split;
    first [apply fmaxf_push_l, Hmax | apply fmaxf_push_r, Hmax | exact Hmax].
Qed.

(** X7. From [setResolution(2^n)] on, every run of in-range [setValueMax]
    calls returns a line that satisfies the max-pyramid invariant: the
    coarser levels never need a rebuild. *)
Theorem fresh_line_keeps_max_pyramid (n : nat) (l0 l : GLLine)
    (us : list (Z * float)) :
  Int.in_range (2 ^ Z.of_nat n) ->
  setResolution (2 ^ Z.of_nat n) l0 = Done l ->
  Forall (fun u => 0 <= fst u < resolution l) us ->
  exists l',
    setValueMax_all us l = Done l' /\
    resolution l' = 2 ^ Z.of_nat n /\
    max_pyramid l'.
Proof.
  intros Hint Hset Hus.
  destruct (setResolution_wf n l0 l Hint Hset) as (_ & Hwf & Hzero).
  assert (Hinv : max_pyramid l).
  { apply (zero_line_max_pyramid n l Hwf). rewrite Hzero at 1.
    f_equal. rewrite Hzero. rewrite length_replicate. reflexivity. }
  rewrite (wf_resolution n l Hwf) in Hus.
  clear Hset Hzero. revert l Hwf Hinv.
  induction us as [|[index v] us IH]; intros l Hwf Hinv.
  - exists l. split; [reflexivity|]. split; [apply Hwf | exact Hinv].
  - inversion Hus as [|? ? Hu Hrest]; subst. simpl in Hu.
    destruct (setValueMax_line n l index v Hwf Hu)
      as (l1 & Hrun & Hwf1 & _ & _).
    destruct (IH Hrest l1 Hwf1) as (l' & Hrun' & Hres & Hinv').
    { apply (max_pyramid_step n l l1 index v); assumption. }
    exists l'. simpl. rewrite Hrun. simpl. auto.
Qed.

Lemma fresh_line_keeps_max_pyramid_witness :
  exists l',
    setValueMax_all [(3, f32 2); (0, f32 (-5)); (3, f32 8)] zeroLine4
    = Done l' /\
    resolution l' = 2 ^ Z.of_nat 2 /\
    max_pyramid l'.
Proof.
  apply (fresh_line_keeps_max_pyramid 2 emptyLine zeroLine4
           [(3, f32 2); (0, f32 (-5)); (3, f32 8)]).
  - vm_compute. split; congruence.
  - reflexivity.
  - repeat constructor; vm_compute; congruence.
Defined.

(** ** Which indices the single-bin updates accept *)

Lemma accessed_S (l : nat) (p index res : Z) :
  accessed (S l) p index res
  = Int.to_size_t (Int.add p index)
      :: accessed l (Int.add p res) (Int.shr index 1) (Int.shr res 1).
Proof. reflexivity. Qed.

Lemma accessed_in_buffer (m : nat) :
  forall p index : Z,
    0 <= index < 2 * 2 ^ Z.of_nat m ->
    0 <= p ->
    p + 2 * 2 ^ Z.of_nat m <= Int.max_int ->
    Forall (fun i => p <= i < p + 2 * 2 ^ Z.of_nat m)
      (accessed (S m) p index (2 ^ Z.of_nat m)).
Proof.
  induction m as [|m IH]; intros p index Hidx Hp Hmax.
  - change (2 ^ Z.of_nat 0) with 1 in *. simpl accessed.
    rewrite offset_small by lia. repeat constructor; lia.
  - pose proof (pow2_pos m) as Hpos. rewrite accessed_S.
    rewrite pow2_succ in *.
    rewrite offset_small by lia. rewrite int_add_small by lia.
    assert (Hsh : Z.shiftr (2 * 2 ^ Z.of_nat m) 1 = 2 ^ Z.of_nat m)
      by (rewrite <- pow2_succ; apply shiftr1_pow2).
    unfold Int.shr. rewrite Hsh.
    constructor; [lia|].
    eapply Forall_impl.
    + apply IH; [|lia|lia]. rewrite shiftr1_div.
      split; [apply Z.div_pos; lia | apply Z.div_lt_upper_bound; lia].
    + intros i Hi. simpl in Hi. lia.
Qed.

Lemma accesses_in_buffer_iff (n : nat) (l : GLLine) (index : Z) :
  wf_line n l ->
  Int.in_range index ->
  Forall (fun i => 0 <= i < size l) (accesses index l)
  <-> 0 <= index < 2 * resolution l.
Proof.
  intros Hwf Hint.
  pose proof (wf_line_max n l Hwf) as Hmax.
  pose proof (pow2_pos n) as Hpos.
  unfold accesses.
  rewrite (wf_levels n l Hwf), (wf_resolution n l Hwf), (wf_size n l Hwf).
  replace (Z.to_nat (Z.of_nat n + 1)) with (S n) by lia.
  split.
  - rewrite accessed_S. intros H. inversion H as [|? ? Hhead _]; subst.
    unfold Int.in_range, Int.min_int, Int.max_int in *.
    unfold Int.add, Int.to_size_t, Int.wrap in Hhead.
    change (2 ^ 31) with 2147483648 in *.
    change (2 ^ 32) with 4294967296 in *.
    change (2 ^ 64) with 18446744073709551616 in *.
    Z.div_mod_to_equations. lia.
  - intros Hidx. eapply Forall_impl.
    + apply (accessed_in_buffer n 0 index); lia.
    + intros i Hi. simpl in Hi. lia.
Qed.

(** X8. Neither update checks [index]. On a line of [2^n] bins both return
    exactly when [0 <= index < 2 * resolution()]: an index in
    [resolution(), 2 * resolution()) is accepted and lands in the coarser
    levels of the same buffer, any other index makes the first access
    fall outside the buffer. *)
Theorem single_bin_update_domain (n : nat) (l : GLLine) (index : Z)
    (val : float) :
  wf_line n l ->
  Int.in_range index ->
  ((exists l', setValueMax index val l = Done l')
   <-> 0 <= index < 2 * resolution l) /\
  ((exists l', setValueMean index val l = Done l')
   <-> 0 <= index < 2 * resolution l) /\
  (~ 0 <= index < 2 * resolution l ->
   setValueMax index val l = Undefined /\
   setValueMean index val l = Undefined).
Proof.
  intros Hwf Hint.
  pose proof (accesses_in_buffer_iff n l index Hwf Hint) as Hacc.
  assert (Hmax : (exists l', setValueMax index val l = Done l')
                 <-> 0 <= index < 2 * resolution l)
    by (rewrite setValueMax_done_iff; exact Hacc).
  assert (Hmean : (exists l', setValueMean index val l = Done l')
                  <-> 0 <= index < 2 * resolution l)
    by (rewrite setValueMean_done_iff; exact Hacc).
  split; [exact Hmax|]. split; [exact Hmean|].
  intros Hout. split.
  - destruct (setValueMax index val l) as [l'| |] eqn:Hrun; [|reflexivity|].
    + exfalso. apply Hout, Hmax. eauto.
    + exfalso. unfold setValueMax in Hrun.
      rewrite (setValueMax_loop_climb _ _ _ _ _ _ 0%nat) in Hrun.
      revert Hrun. generalize (Z.to_nat (levels l)) 0%nat 0 index
        (resolution l) (data l).
      intros fuel. induction fuel as [|fuel IH]; intros k p i r d; simpl.
      * discriminate.
      * destruct (d !! _); [apply IH | discriminate].
  - destruct (setValueMean index val l) as [l'| |] eqn:Hrun; [|reflexivity|].
    + exfalso. apply Hout, Hmean. eauto.
    + exfalso. unfold setValueMean in Hrun. change F32.one with (weight 0) in Hrun.
      rewrite (setValueMean_loop_climb _ _ _ _ _ _ 0%nat) in Hrun.
      revert Hrun. generalize (Z.to_nat (levels l)) 0%nat 0 index
        (resolution l) (data l).
      intros fuel. induction fuel as [|fuel IH]; intros k p i r d; simpl.
      * discriminate.
      * destruct (d !! _); [apply IH | discriminate].
Qed.

Lemma single_bin_update_domain_witness :
  ((exists l', setValueMax 5 (f32 1) zeroLine4 = Done l')
   <-> 0 <= 5 < 2 * resolution zeroLine4) /\
  ((exists l', setValueMean 5 (f32 1) zeroLine4 = Done l')
   <-> 0 <= 5 < 2 * resolution zeroLine4) /\
  (~ 0 <= 5 < 2 * resolution zeroLine4 ->
   setValueMax 5 (f32 1) zeroLine4 = Undefined /\
   setValueMean 5 (f32 1) zeroLine4 = Undefined).
Proof.
  apply (single_bin_update_domain 2 zeroLine4 5 (f32 1)).
  - split; reflexivity.
  - vm_compute. split; congruence.
Defined.

Example setValueMax_one_past_the_end :
  setValueMax 4 (f32 9) zeroLine4
  = Done (mkGLLine 3 [f32 0; f32 0; f32 0; f32 0; f32 9; f32 0; f32 9; f32 9]).
Proof. vm_compute. reflexivity. Qed.

(** * Properties of [ContextAwareSpinBox] *)

Import SpinBox.

(** The table in the comment of [currentStep], on [1387.01]. *)
Example currentStep_table :
  map (fun c => stepExponent (box_1387 c)) [0; 1; 2; 3; 4; 5; 6; 7]
  = [4; 3; 2; 1; 0; 0; -1; -2].
Proof. vm_compute. reflexivity. Qed.

(** The table in the comment of [stepToCursor]. *)
Example stepToCursor_table :
  map (fun e => stepToCursor Q floor_log10Q (pow10Q e) (box_1387 0))
    [4; 3; 2; 1; 0; -1; -2]
  = [0; 1; 2; 3; 4; 6; 7].
Proof. vm_compute. reflexivity. Qed.

(** ** Lengths and pieces of the text *)

Lemma int_sub_small (a b : Z) : Int.in_range (a - b) -> int_sub a b = a - b.
Proof. apply wrap_small. Qed.

Lemma qsize_small (s : QString) :
  Z.of_nat (length s) <= Int.max_int -> qsize s = Z.of_nat (length s).
Proof.
  intros H. unfold qsize, Int.of_size_t. apply wrap_small.
  unfold Int.in_range, Int.min_int. lia.
Qed.

Lemma mid_number (p n s : QString) :
  mid (Z.of_nat (length p)) (Z.of_nat (length n)) (p ++ n ++ s) = n.
Proof.
  unfold mid. rewrite !length_app.
  destruct (Z.ltb_spec (Z.of_nat (length p + (length n + length s)))
              (Z.of_nat (length p))) as [|_]; [lia|].
  destruct (Z.ltb_spec (Z.of_nat (length p)) 0) as [|_]; [lia|].
  destruct (Z.ltb_spec (Z.of_nat (length n)) 0) as [|_]; [lia|].
  destruct (Z.ltb_spec
              (Z.of_nat (length p + (length n + length s)) - Z.of_nat (length p))
              (Z.of_nat (length n))) as [|_]; [lia|].
  simpl. rewrite !Nat2Z.id, drop_app_length, take_app_length. reflexivity.
Qed.

Lemma indexOf_from_absent (ch : QChar) (s : QString) (i : Z) :
  ch ∉ s -> indexOf_from ch s i = -1.
Proof.
  revert i. induction s as [|c s IH]; intros i Hout; [reflexivity|].
  simpl. destruct (Ascii.eqb_spec c ch) as [->|_].
  - exfalso. apply Hout. left.
  - apply IH. intros Hin. apply Hout. right. exact Hin.
Qed.

Lemma indexOf_from_first (ch : QChar) (ip fp : QString) (i : Z) :
  ch ∉ ip -> indexOf_from ch (ip ++ ch :: fp) i = i + Z.of_nat (length ip).
Proof.
  revert i. induction ip as [|c ip IH]; intros i Hout.
  - simpl. rewrite Ascii.eqb_refl. lia.
  - simpl. destruct (Ascii.eqb_spec c ch) as [->|_].
    + exfalso. apply Hout. left.
    + rewrite IH; [simpl length; lia|].
      intros Hin. apply Hout. right. exact Hin.
Qed.

Lemma indexOf_from_range (ch : QChar) (s : QString) (i : Z) :
  indexOf_from ch s i = -1 \/
  i <= indexOf_from ch s i < i + Z.of_nat (length s).
Proof.
  revert i. induction s as [|c s IH]; intros i; [left; reflexivity|].
  simpl indexOf_from. destruct (Ascii.eqb c ch).
  - right. simpl length. lia.
  - destruct (IH (i + 1)) as [H|H]; [left; exact H | right; simpl length; lia].
Qed.

(** What the box computes, with the lengths as numbers: [P], [N] and [S]
    are the lengths of the prefix, the number and the suffix. *)
Lemma box_lengths (number : QString) (sb : ContextAwareSpinBox) :
  wf_box number sb ->
  let P := Z.of_nat (length (prefix sb)) in
  let N := Z.of_nat (length number) in
  let S := Z.of_nat (length (suffix sb)) in
  Z.of_nat (length (text sb)) = P + N + S /\
  qsize (prefix sb) = P /\
  qsize (suffix sb) = S /\
  qsize (text sb) = P + N + S /\
  decimalLength sb
  = (if 0 <=? indexOf (m_decimSep sb) number
     then N - indexOf (m_decimSep sb) number else 0) /\
  0 <= decimalLength sb <= N /\
  intLen sb = N - decimalLength sb.
Proof.
  intros [Htext Hfits Hcur] P N S.
  assert (Hlen : Z.of_nat (length (text sb)) = P + N + S).
  { rewrite Htext, !length_app. unfold P, N, S. lia. }
  assert (HP : qsize (prefix sb) = P) by (apply qsize_small; lia).
  assert (HS : qsize (suffix sb) = S) by (apply qsize_small; lia).
  assert (HT : qsize (text sb) = P + N + S)
    by (rewrite qsize_small; [exact Hlen | lia]).
  assert (Hrange : forall z, - (P + N + S) <= z <= P + N + S -> Int.in_range z).
  { intros z Hz. unfold Int.in_range, Int.min_int, Int.max_int in *. lia. }
  assert (HD : decimalLength sb
               = if 0 <=? indexOf (m_decimSep sb) number
                 then N - indexOf (m_decimSep sb) number else 0).
  { unfold decimalLength. rewrite HP, HS, HT.
    rewrite (int_sub_small (P + N + S) P) by (apply Hrange; lia).
    rewrite (int_sub_small (P + N + S - P) S) by (apply Hrange; lia).
    replace (P + N + S - P - S) with N by lia.
    rewrite Htext. unfold P, N. rewrite mid_number.
    destruct (indexOf_from_range (m_decimSep sb) number 0) as [Hi|Hi];
      fold (indexOf (m_decimSep sb) number) in Hi.
    - rewrite Hi. reflexivity.
    - destruct (Z.leb_spec 0 (indexOf (m_decimSep sb) number)); [|lia].
      rewrite qsize_small by lia. apply int_sub_small, Hrange.
      fold N. lia. }
  assert (HDr : 0 <= decimalLength sb <= N).
  { rewrite HD.
    destruct (indexOf_from_range (m_decimSep sb) number 0) as [Hi|Hi];
      fold (indexOf (m_decimSep sb) number) in Hi.
    - rewrite Hi. simpl. lia.
    - destruct (Z.leb_spec 0 (indexOf (m_decimSep sb) number)); fold N in Hi; lia. }
  repeat split; try assumption; try lia.
  unfold intLen. rewrite HP, HS, HT.
  rewrite (int_add_small P S) by lia.
  rewrite (int_sub_small (P + N + S) (decimalLength sb)) by (apply Hrange; lia).
  rewrite int_sub_small by (apply Hrange; lia). lia.
Qed.

(** ** [decimalLength] *)

(** X9. The decimal length is what the number text has from its first
    decimal separator on, separator included, and 0 when it has none; the
    integer length is what comes before. *)
Theorem decimalLength_splits (number : QString) (sb : ContextAwareSpinBox) :
  wf_box number sb ->
  (m_decimSep sb ∉ number ->
   decimalLength sb = 0 /\ intLen sb = Z.of_nat (length number)) /\
  (forall ip fp : QString,
     number = ip ++ m_decimSep sb :: fp ->
     m_decimSep sb ∉ ip ->
     decimalLength sb = 1 + Z.of_nat (length fp) /\
     intLen sb = Z.of_nat (length ip)) /\
  0 <= decimalLength sb <= Z.of_nat (length number) /\
  intLen sb + decimalLength sb = Z.of_nat (length number).
Proof.
  intros Hwf.
  destruct (box_lengths number sb Hwf) as (_ & _ & _ & _ & HD & HDr & HI).
  split; [|split; [|split; [exact HDr | lia]]].
  - intros Hout. unfold indexOf in HD.
    rewrite indexOf_from_absent in HD by exact Hout. simpl in HD. lia.
  - intros ip fp -> Hout. unfold indexOf in HD.
    rewrite indexOf_from_first in HD by exact Hout.
    rewrite length_app in *. simpl length in *.
    destruct (Z.leb_spec 0 (0 + Z.of_nat (length ip))); lia.
Qed.

Lemma decimalLength_splits_witness :
  (m_decimSep (box_hz 3) ∉ qstr "1387.01" ->
   decimalLength (box_hz 3) = 0 /\
   intLen (box_hz 3) = Z.of_nat (length (qstr "1387.01"))) /\
  (forall ip fp : QString,
     qstr "1387.01" = ip ++ m_decimSep (box_hz 3) :: fp ->
     m_decimSep (box_hz 3) ∉ ip ->
     decimalLength (box_hz 3) = 1 + Z.of_nat (length fp) /\
     intLen (box_hz 3) = Z.of_nat (length ip)) /\
  0 <= decimalLength (box_hz 3) <= Z.of_nat (length (qstr "1387.01")) /\
  intLen (box_hz 3) + decimalLength (box_hz 3)
  = Z.of_nat (length (qstr "1387.01")).
Proof.
  apply (decimalLength_splits (qstr "1387.01") (box_hz 3)).
  split; [reflexivity | vm_compute; congruence | simpl; lia].
Defined.

(** ** The step under the cursor *)

(** [stepExponent] without the machine arithmetic. *)
Lemma stepExponent_spec (number : QString) (sb : ContextAwareSpinBox) :
  wf_box number sb ->
  let P := Z.of_nat (length (prefix sb)) in
  let I := intLen sb in
  let D := decimalLength sb in
  let pos0 := cursorPosition sb - P in
  let pos1 :=
    if pos0 <? 0 then I else if I + D <? pos0 then I + D else pos0 in
  let pos2 := if I <? pos1 then pos1 - 1 else pos1 in
  stepExponent sb = I - pos2.
Proof.
  intros Hwf.
  destruct (box_lengths number sb Hwf) as (Hlen & HP & _ & _ & _ & HDr & HI).
  destruct Hwf as [_ Hfits Hcur].
  intros P I D pos0 pos1 pos2.
  assert (Hrange : forall z,
            - Z.of_nat (length (text sb)) - 1 <= z <= Z.of_nat (length (text sb)) ->
            Int.in_range z).
  { intros z Hz. unfold Int.in_range, Int.min_int, Int.max_int in *. lia. }
  unfold stepExponent. rewrite HP. fold I D P.
  assert (HIr : 0 <= I <= Z.of_nat (length number)) by (unfold I, D in *; lia).
  assert (HDI : I + D = Z.of_nat (length number)) by (unfold I, D in *; lia).
  rewrite (int_sub_small (cursorPosition sb) P) by (apply Hrange; lia).
  rewrite (int_add_small I D) by (unfold Int.max_int in *; lia).
  fold pos0. fold pos1.
  assert (Hpos1 : 0 <= pos1 <= I + D).
  { unfold pos1. destruct (Z.ltb_spec pos0 0); [lia|].
    destruct (Z.ltb_spec (I + D) pos0); lia. }
  assert (Hpos2 : (if I <? pos1 then int_sub pos1 1 else pos1) = pos2).
  { unfold pos2. destruct (Z.ltb_spec I pos1); [|reflexivity].
    apply int_sub_small, Hrange. lia. }
  rewrite Hpos2. apply int_sub_small, Hrange.
  unfold pos2. destruct (Z.ltb_spec I pos1); lia.
Qed.

(** X10. Whatever the cursor position, the step is a power of ten between
    the last decimal shown and [10^intLen]. *)
Theorem currentStep_bounds (qreal : Type) (pow10 : Z -> qreal)
    (number : QString) (sb : ContextAwareSpinBox) :
  wf_box number sb ->
  currentStep qreal pow10 sb = pow10 (stepExponent sb) /\
  - decimals sb <= stepExponent sb <= intLen sb /\
  0 <= intLen sb <= Z.of_nat (length number).
Proof.
  intros Hwf. split; [reflexivity|].
  pose proof (stepExponent_spec number sb Hwf) as Hexp. cbv zeta in Hexp.
  destruct (box_lengths number sb Hwf) as (_ & _ & _ & _ & _ & HDr & HI).
  rewrite Hexp. unfold decimals.
  set (P := Z.of_nat (length (prefix sb))) in *.
  set (I := intLen sb) in *. set (D := decimalLength sb) in *.
  repeat match goal with
         | |- context [?a <? ?b] => destruct (Z.ltb_spec a b)
         end; lia.
Qed.

Lemma currentStep_bounds_witness :
  currentStep Q pow10Q (box_hz 14) = pow10Q (stepExponent (box_hz 14)) /\
  - decimals (box_hz 14) <= stepExponent (box_hz 14) <= intLen (box_hz 14) /\
  0 <= intLen (box_hz 14) <= Z.of_nat (length (qstr "1387.01")).
Proof.
  apply (currentStep_bounds Q pow10Q (qstr "1387.01") (box_hz 14)).
  split; [reflexivity | vm_compute; congruence | simpl; lia].
Defined.

(** X11. The step as a function of the digit the cursor follows: [j] digits
    into the integer part the step is [10^(intLen - j)]; right after the
    separator it is still 1, and [j] decimals further it is [10^-j]; a
    cursor inside the prefix gives 1, a cursor inside the suffix gives the
    last decimal. *)
Theorem currentStep_by_digit (qreal : Type) (pow10 : Z -> qreal)
    (ip fp : QString) (sb : ContextAwareSpinBox) :
  wf_box (ip ++ m_decimSep sb :: fp) sb ->
  m_decimSep sb ∉ ip ->
  let P := Z.of_nat (length (prefix sb)) in
  let I := Z.of_nat (length ip) in
  let F := Z.of_nat (length fp) in
  (forall j : Z,
     0 <= j <= I -> cursorPosition sb = P + j ->
     currentStep qreal pow10 sb = pow10 (I - j)) /\
  (forall j : Z,
     0 <= j <= F -> cursorPosition sb = P + I + 1 + j ->
     currentStep qreal pow10 sb = pow10 (- j)) /\
  (cursorPosition sb < P -> currentStep qreal pow10 sb = pow10 0) /\
  (P + I + 1 + F < cursorPosition sb ->
   currentStep qreal pow10 sb = pow10 (- F)).
Proof.
  intros Hwf Hout P I F.
  pose proof (stepExponent_spec _ sb Hwf) as Hexp. cbv zeta in Hexp.
  destruct (decimalLength_splits _ sb Hwf) as (_ & Hsplit & _ & _).
  destruct (Hsplit ip fp eq_refl Hout) as [HD HI].
  unfold currentStep. rewrite Hexp, HD, HI. fold P I F.
  repeat split; intros; f_equal;
    repeat match goal with
           | |- context [?a <? ?b] => destruct (Z.ltb_spec a b)
           end; lia.
Qed.

Lemma currentStep_by_digit_witness :
  (forall j : Z,
     0 <= j <= Z.of_nat (length (qstr "1387")) ->
     cursorPosition (box_hz 6) = Z.of_nat (length (prefix (box_hz 6))) + j ->
     currentStep Q pow10Q (box_hz 6)
     = pow10Q (Z.of_nat (length (qstr "1387")) - j)) /\
  (forall j : Z,
     0 <= j <= Z.of_nat (length (qstr "01")) ->
     cursorPosition (box_hz 6)
     = Z.of_nat (length (prefix (box_hz 6)))
       + Z.of_nat (length (qstr "1387")) + 1 + j ->
     currentStep Q pow10Q (box_hz 6) = pow10Q (- j)) /\
  (cursorPosition (box_hz 6) < Z.of_nat (length (prefix (box_hz 6))) ->
   currentStep Q pow10Q (box_hz 6) = pow10Q 0) /\
  (Z.of_nat (length (prefix (box_hz 6))) + Z.of_nat (length (qstr "1387")) + 1
   + Z.of_nat (length (qstr "01")) < cursorPosition (box_hz 6) ->
   currentStep Q pow10Q (box_hz 6)
   = pow10Q (- Z.of_nat (length (qstr "01")))).
Proof.
  apply (currentStep_by_digit Q pow10Q (qstr "1387") (qstr "01") (box_hz 6)).
  - split; [reflexivity | vm_compute; congruence | simpl; lia].
  - intros Hin. apply list_elem_of_In in Hin. simpl in Hin.
    intuition discriminate.
Defined.

(** ** From the step back to the cursor *)

Lemma setCursorPosition_inside (c : Z) (sb : ContextAwareSpinBox) :
  0 <= c <= Z.of_nat (length (text sb)) ->
  setCursorPosition c sb
  = mkSpinBox (prefix sb) (suffix sb) (text sb) c (m_decimSep sb)
      (m_blockEnabled sb) (repaints sb).
Proof.
  intros H. unfold setCursorPosition.
  destruct (Z.leb_spec c (Z.of_nat (length (text sb)))); [|lia].
  rewrite Z.max_r by lia. reflexivity.
Qed.

Lemma wf_box_move (number : QString) (c : Z) (sb : ContextAwareSpinBox) :
  wf_box number sb ->
  0 <= c <= Z.of_nat (length (text sb)) ->
  wf_box number (setCursorPosition c sb) /\
  decimalLength (setCursorPosition c sb) = decimalLength sb /\
  intLen (setCursorPosition c sb) = intLen sb /\
  cursorPosition (setCursorPosition c sb) = c /\
  prefix (setCursorPosition c sb) = prefix sb.
Proof.
  intros [Htext Hfits Hcur] Hc. rewrite setCursorPosition_inside by exact Hc.
  repeat split; simpl; try assumption; lia.
Qed.

(** Where [stepToCursor] puts the cursor, and the step that
    [currentStep] reads there. *)
Lemma stepToCursor_inverse (qreal : Type) (floor_log10 : qreal -> Z)
    (number : QString) (sb : ContextAwareSpinBox) (step : qreal) (e : Z) :
  wf_box number sb ->
  floor_log10 step = e ->
  - decimals sb <= e <= intLen sb ->
  stepToCursor qreal floor_log10 step sb
  = Z.of_nat (length (prefix sb)) + intLen sb - e + (if e <? 0 then 1 else 0) /\
  0 <= stepToCursor qreal floor_log10 step sb <= Z.of_nat (length (text sb)) /\
  stepExponent (setCursorPosition (stepToCursor qreal floor_log10 step sb) sb)
  = e.
Proof.
  intros Hwf Hlog He.
  destruct (box_lengths number sb Hwf) as (Hlen & HP & _ & HT & _ & HDr & HI).
  pose proof (wf_fits number sb Hwf) as Hfits.
  set (P := Z.of_nat (length (prefix sb))) in *.
  set (I := intLen sb) in *. set (D := decimalLength sb) in *.
  unfold decimals in He. fold D in He.
  assert (Hrange : forall z,
            - Z.of_nat (length (text sb)) - 1 <= z
            <= 2 * Z.of_nat (length (text sb)) -> Int.in_range z).
  { intros z Hz. unfold Int.in_range, Int.min_int, Int.max_int in *. lia. }
  assert (Hc : stepToCursor qreal floor_log10 step sb
               = P + I - e + (if e <? 0 then 1 else 0)).
  { unfold stepToCursor. rewrite Hlog, HP, HT. fold I.
    rewrite (int_sub_small I e) by (apply Hrange; lia).
    unfold qBound.
    destruct (Z.ltb_spec e 0).
    - rewrite (int_add_small (I - e) 1) by (unfold Int.max_int in *; lia).
      rewrite int_add_small by (unfold Int.max_int in *; lia). lia.
    - rewrite int_add_small by (unfold Int.max_int in *; lia). lia. }
  split; [exact Hc|].
  assert (Hin : 0 <= stepToCursor qreal floor_log10 step sb
                <= Z.of_nat (length (text sb))).
  { rewrite Hc. destruct (Z.ltb_spec e 0); lia. }
  split; [exact Hin|].
  destruct (wf_box_move number _ sb Hwf Hin) as (Hwf' & HD' & HI' & Hcur' & HP').
  pose proof (stepExponent_spec number _ Hwf') as Hexp. cbv zeta in Hexp.
  rewrite Hexp, HD', HI', Hcur', HP', Hc. fold P I D.
  destruct (Z.ltb_spec e 0);
    repeat match goal with
           | |- context [?a <? ?b] => destruct (Z.ltb_spec a b)
           end; lia.
Qed.

(** X12. After [setSingleStep(step)] the cursor is on the digit of weight
    [step]: when [step] is a power of ten that the number shows,
    [currentStep()] returns it. *)
Theorem setSingleStep_then_currentStep (qreal : Type) (pow10 : Z -> qreal)
    (floor_log10 : qreal -> Z)
    (base_setSingleStep : qreal -> ContextAwareSpinBox -> ContextAwareSpinBox)
    (number : QString) (sb : ContextAwareSpinBox) (e : Z) :
  wf_box number (base_setSingleStep (pow10 e) sb) ->
  floor_log10 (pow10 e) = e ->
  - decimals (base_setSingleStep (pow10 e) sb) <= e
  <= intLen (base_setSingleStep (pow10 e) sb) ->
  currentStep qreal pow10
    (setSingleStep qreal floor_log10 base_setSingleStep (pow10 e) sb)
  = pow10 e /\
  0 <= cursorPosition
         (setSingleStep qreal floor_log10 base_setSingleStep (pow10 e) sb)
  <= Z.of_nat (length (text (base_setSingleStep (pow10 e) sb))).
Proof.
  intros Hwf Hlog He.
  destruct (stepToCursor_inverse qreal floor_log10 number _ (pow10 e) e
              Hwf Hlog He) as (_ & Hin & Hexp).
  unfold setSingleStep, currentStep. rewrite Hexp. split; [reflexivity|].
  destruct (wf_box_move number _ _ Hwf Hin) as (_ & _ & _ & -> & _).
  exact Hin.
Qed.

Lemma setSingleStep_then_currentStep_witness :
  currentStep Q pow10Q
    (setSingleStep Q floor_log10Q (fun _ sb => sb) (pow10Q (-2)) (box_hz 5))
  = pow10Q (-2) /\
  0 <= cursorPosition
         (setSingleStep Q floor_log10Q (fun _ sb => sb) (pow10Q (-2)) (box_hz 5))
  <= Z.of_nat (length (text ((fun _ sb => sb) (pow10Q (-2)) (box_hz 5)))).
Proof.
  apply (setSingleStep_then_currentStep Q pow10Q floor_log10Q (fun _ sb => sb)
           (qstr "1387.01") (box_hz 5) (-2)).
  - split; [reflexivity | vm_compute; congruence | simpl; lia].
  - vm_compute. reflexivity.
  - vm_compute. split; congruence.
Defined.

Lemma stepExponent_in_range (sb : ContextAwareSpinBox) :
  Int.in_range (stepExponent sb).
Proof.
  unfold stepExponent, int_sub at 1, Int.wrap, Int.in_range, Int.min_int,
    Int.max_int.
  match goal with |- _ <= ?a mod ?b - _ <= _ =>
    pose proof (Z.mod_pos_bound a b ltac:(lia)) end.
  lia.
Qed.

(** X13. [stepBy] keeps the step: it reads the step under the cursor, lets
    the base class change the value, then puts the cursor on the digit of
    the same weight in the new text. When the new number still shows that
    digit, [currentStep()] is what it was; when the number has become too
    short for it, the cursor goes to the front of the number. *)
Theorem stepBy_keeps_step (qreal : Type) (pow10 : Z -> qreal)
    (floor_log10 : qreal -> Z)
    (base_setSingleStep : qreal -> ContextAwareSpinBox -> ContextAwareSpinBox)
    (base_stepBy : Z -> ContextAwareSpinBox -> ContextAwareSpinBox)
    (number : QString) (sb sb2 : ContextAwareSpinBox) (steps : Z) :
  sb2 = base_stepBy steps (base_setSingleStep (currentStep qreal pow10 sb) sb) ->
  wf_box number sb2 ->
  floor_log10 (currentStep qreal pow10 sb) = stepExponent sb ->
  (- decimals sb2 <= stepExponent sb <= intLen sb2 ->
   currentStep qreal pow10
     (stepBy qreal pow10 floor_log10 base_setSingleStep base_stepBy steps sb)
   = currentStep qreal pow10 sb) /\
  (intLen sb2 < stepExponent sb ->
   cursorPosition
     (stepBy qreal pow10 floor_log10 base_setSingleStep base_stepBy steps sb)
   = Z.of_nat (length (prefix sb2)) /\
   currentStep qreal pow10
     (stepBy qreal pow10 floor_log10 base_setSingleStep base_stepBy steps sb)
   = pow10 (intLen sb2)).
Proof.
  intros Hsb2 Hwf Hlog. unfold stepBy. rewrite <- Hsb2. split.
  - intros He.
    destruct (stepToCursor_inverse qreal floor_log10 number sb2
                (currentStep qreal pow10 sb) (stepExponent sb) Hwf Hlog He)
      as (_ & _ & Hexp).
    unfold currentStep at 1. rewrite Hexp. reflexivity.
  - intros Hbig.
    destruct (box_lengths number sb2 Hwf) as (Hlen & HP & _ & HT & _ & HDr & HI).
    pose proof (wf_fits number sb2 Hwf) as Hfits.
    pose proof (stepExponent_in_range sb) as He.
    assert (Hc : stepToCursor qreal floor_log10 (currentStep qreal pow10 sb) sb2
                 = Z.of_nat (length (prefix sb2))).
    { unfold stepToCursor. rewrite Hlog, HP, HT.
      unfold Int.in_range, Int.min_int, Int.max_int in *.
      rewrite int_sub_small
        by (unfold Int.in_range, Int.min_int, Int.max_int; lia).
      destruct (Z.ltb_spec (stepExponent sb) 0); [lia|].
      unfold qBound. rewrite int_add_small by (unfold Int.max_int; lia). lia. }
    rewrite Hc.
    assert (Hin : 0 <= Z.of_nat (length (prefix sb2))
                  <= Z.of_nat (length (text sb2))) by lia.
    destruct (wf_box_move number _ sb2 Hwf Hin)
      as (Hwf' & HD' & HI' & Hcur' & HP').
    split; [exact Hcur'|].
    pose proof (stepExponent_spec number _ Hwf') as Hexp. cbv zeta in Hexp.
    unfold currentStep. rewrite Hexp, HD', HI', Hcur', HP'. f_equal.
    repeat match goal with
           | |- context [?a <? ?b] => destruct (Z.ltb_spec a b)
           end; lia.
Qed.

Lemma stepBy_keeps_step_witness :
  (- decimals (box_hz 7) <= stepExponent (box_hz 7) <= intLen (box_hz 7) ->
   currentStep Q pow10Q
     (stepBy Q pow10Q floor_log10Q (fun _ sb => sb) (fun _ sb => sb) 1
        (box_hz 7))
   = currentStep Q pow10Q (box_hz 7)) /\
  (intLen (box_hz 7) < stepExponent (box_hz 7) ->
   cursorPosition
     (stepBy Q pow10Q floor_log10Q (fun _ sb => sb) (fun _ sb => sb) 1
        (box_hz 7))
   = Z.of_nat (length (prefix (box_hz 7))) /\
   currentStep Q pow10Q
     (stepBy Q pow10Q floor_log10Q (fun _ sb => sb) (fun _ sb => sb) 1
        (box_hz 7))
   = pow10Q (intLen (box_hz 7))).
Proof.
  apply (stepBy_keeps_step Q pow10Q floor_log10Q (fun _ sb => sb)
           (fun _ sb => sb) (qstr "1387.01") (box_hz 7) (box_hz 7) 1).
  - reflexivity.
  - split; [reflexivity | vm_compute; congruence | simpl; lia].
  - vm_compute. reflexivity.
Defined.

(** X14. Reading the step and turning it back into a cursor position gives
    the position the cursor had inside the number, except right after the
    decimal separator: from there the cursor is put before it. *)
Theorem stepToCursor_of_currentStep (qreal : Type) (pow10 : Z -> qreal)
    (floor_log10 : qreal -> Z) (number : QString)
    (sb : ContextAwareSpinBox) :
  wf_box number sb ->
  Z.of_nat (length (prefix sb)) <= cursorPosition sb
  <= Z.of_nat (length (prefix sb)) + Z.of_nat (length number) ->
  floor_log10 (currentStep qreal pow10 sb) = stepExponent sb ->
  stepToCursor qreal floor_log10 (currentStep qreal pow10 sb) sb
  = if cursorPosition sb - Z.of_nat (length (prefix sb)) =? intLen sb + 1
    then cursorPosition sb - 1
    else cursorPosition sb.
Proof.
  intros Hwf Hcur Hlog.
  pose proof (stepExponent_spec number sb Hwf) as Hexp. cbv zeta in Hexp.
  destruct (box_lengths number sb Hwf) as (_ & _ & _ & _ & _ & HDr & HI).
  assert (He : - decimals sb <= stepExponent sb <= intLen sb).
  { rewrite Hexp. unfold decimals.
    repeat match goal with
           | |- context [?a <? ?b] => destruct (Z.ltb_spec a b)
           end; lia. }
  destruct (stepToCursor_inverse qreal floor_log10 number sb
              (currentStep qreal pow10 sb) (stepExponent sb) Hwf Hlog He)
    as (Hc & _ & _).
  rewrite Hc, Hexp.
  destruct (Z.eqb_spec (cursorPosition sb - Z.of_nat (length (prefix sb)))
              (intLen sb + 1));
    repeat match goal with
           | |- context [?a <? ?b] => destruct (Z.ltb_spec a b)
           end; lia.
Qed.

Lemma stepToCursor_of_currentStep_witness :
  stepToCursor Q floor_log10Q (currentStep Q pow10Q (box_hz 9)) (box_hz 9)
  = if cursorPosition (box_hz 9) - Z.of_nat (length (prefix (box_hz 9)))
       =? intLen (box_hz 9) + 1
    then cursorPosition (box_hz 9) - 1
    else cursorPosition (box_hz 9).
Proof.
  apply (stepToCursor_of_currentStep Q pow10Q floor_log10Q (qstr "1387.01")
           (box_hz 9)).
  - split; [reflexivity | vm_compute; congruence | simpl; lia].
  - simpl. lia.
  - vm_compute. reflexivity.
Defined.

(** ** [setMinimumStep] and [focusInEvent] *)

(** X15. [setMinimumStep()] puts the cursor at the end of the text, where
    the step is the last decimal shown (1 when the number has none). *)
Theorem setMinimumStep_last_decimal (qreal : Type) (pow10 : Z -> qreal)
    (number : QString) (sb : ContextAwareSpinBox) :
  wf_box number sb ->
  cursorPosition (setMinimumStep sb) = Z.of_nat (length (text sb)) /\
  currentStep qreal pow10 (setMinimumStep sb) = pow10 (- decimals sb).
Proof.
  intros Hwf.
  destruct (box_lengths number sb Hwf) as (Hlen & HP & _ & HT & _ & HDr & HI).
  unfold setMinimumStep. rewrite HT, <- Hlen.
  assert (Hin : 0 <= Z.of_nat (length (text sb)) <= Z.of_nat (length (text sb)))
    by lia.
  destruct (wf_box_move number _ sb Hwf Hin) as (Hwf' & HD' & HI' & Hcur' & HP').
  split; [exact Hcur'|].
  pose proof (stepExponent_spec number _ Hwf') as Hexp. cbv zeta in Hexp.
  unfold currentStep. rewrite Hexp, HD', HI', Hcur', HP'. f_equal.
  unfold decimals.
  repeat match goal with
         | |- context [?a <? ?b] => destruct (Z.ltb_spec a b)
         end; lia.
Qed.

Lemma setMinimumStep_last_decimal_witness :
  cursorPosition (setMinimumStep (box_hz 0))
  = Z.of_nat (length (text (box_hz 0))) /\
  currentStep Q pow10Q (setMinimumStep (box_hz 0))
  = pow10Q (- decimals (box_hz 0)).
Proof.
  apply (setMinimumStep_last_decimal Q pow10Q (qstr "1387.01") (box_hz 0)).
  split; [reflexivity | vm_compute; congruence | simpl; lia].
Defined.

Lemma stepExponent_same_edit (a b : ContextAwareSpinBox) :
  same_edit a b -> stepExponent a = stepExponent b.
Proof.
  destruct a, b. unfold same_edit.
  cbn [prefix suffix text cursorPosition m_decimSep].
  intros (-> & -> & -> & -> & ->).
  unfold stepExponent, intLen, decimalLength.
  cbn [prefix suffix text cursorPosition m_decimSep]. reflexivity.
Qed.

(** X16. [focusInEvent] puts the cursor between the integer part and the
    decimal separator before it hands the event to the base class: when
    the base class leaves the line edit alone, the box starts with a step
    of 1. *)
Theorem focusInEvent_unit_step (qreal : Type) (pow10 : Z -> qreal)
    (base_focusInEvent : ContextAwareSpinBox -> ContextAwareSpinBox)
    (number : QString) (sb : ContextAwareSpinBox) :
  wf_box number sb ->
  same_edit
    (base_focusInEvent
       (setCursorPosition (Int.add (qsize (prefix sb)) (intLen sb)) sb))
    (setCursorPosition (Int.add (qsize (prefix sb)) (intLen sb)) sb) ->
  cursorPosition (focusInEvent base_focusInEvent sb)
  = Z.of_nat (length (prefix sb)) + intLen sb /\
  currentStep qreal pow10 (focusInEvent base_focusInEvent sb) = pow10 0.
Proof.
  intros Hwf Hsame.
  destruct (box_lengths number sb Hwf) as (Hlen & HP & _ & HT & _ & HDr & HI).
  pose proof (wf_fits number sb Hwf) as Hfits.
  unfold focusInEvent, currentStep.
  rewrite (stepExponent_same_edit _ _ Hsame).
  destruct Hsame as (_ & _ & _ & -> & _).
  rewrite HP. rewrite int_add_small by (unfold Int.max_int in *; lia).
  assert (Hin : 0 <= Z.of_nat (length (prefix sb)) + intLen sb
                <= Z.of_nat (length (text sb))) by lia.
  destruct (wf_box_move number _ sb Hwf Hin) as (Hwf' & HD' & HI' & Hcur' & HP').
  split; [exact Hcur'|].
  pose proof (stepExponent_spec number _ Hwf') as Hexp. cbv zeta in Hexp.
  rewrite Hexp, HD', HI', Hcur', HP'. f_equal.
  repeat match goal with
         | |- context [?a <? ?b] => destruct (Z.ltb_spec a b)
         end; lia.
Qed.

Lemma focusInEvent_unit_step_witness :
  cursorPosition (focusInEvent (fun sb => sb) (box_hz 13))
  = Z.of_nat (length (prefix (box_hz 13))) + intLen (box_hz 13) /\
  currentStep Q pow10Q (focusInEvent (fun sb => sb) (box_hz 13)) = pow10Q 0.
Proof.
  apply (focusInEvent_unit_step Q pow10Q (fun sb => sb) (qstr "1387.01")
           (box_hz 13)).
  - split; [reflexivity | vm_compute; congruence | simpl; lia].
  - repeat split.
Defined.

(** ** The block cursor *)

(** X17. [setBlockEnabled(en)] makes [blockEnabled()] return [en], asks for a
    repaint only when the flag changes, leaves the line edit alone, and
    decides the cursor width that [BlockCursorStyle] reports: -9 when
    enabled, the base style's otherwise; every other metric is the base
    style's. *)
Theorem setBlockEnabled_effect (en : bool) (sb : ContextAwareSpinBox)
    (base : PixelMetric -> Z) (metric : PixelMetric) :
  blockEnabled (setBlockEnabled en sb) = en /\
  repaints (setBlockEnabled en sb)
  = (if Bool.eqb en (blockEnabled sb) then repaints sb else S (repaints sb)) /\
  setBlockEnabled en (setBlockEnabled en sb) = setBlockEnabled en sb /\
  same_edit (setBlockEnabled en sb) sb /\
  pixelMetric base (setBlockEnabled en sb) metric
  = match metric with
    | PM_TextCursorWidth => if en then -9 else base metric
    | PM_Other _ => base metric
    end.
Proof.
  destruct sb as [p s t c d b r]. unfold setBlockEnabled, blockEnabled.
  destruct en, b, metric; simpl; repeat split.
Qed.
